(** * Clean Code reading tracker: chapter pagination, cache and mutations

    A shallow embedding of the chapter store (the Express server), of the
    hand-written page-state client ([App], the component that keeps [chs],
    [pg], [has_more], [load], [prog] in React state) and of the
    query-library client ([useChapters]), followed by the properties of the
    pagination / cache layer. *)

From Stdlib Require Import ZArith Lia.
From stdpp Require Import gmap strings list.

Open Scope Z_scope.

(** ** Data model *)

(** A chapter as the server's literal array holds it.  The client type
    [Chapter] has the same fields without [slide]. *)
Record Chapter := mkChapter {
  id : Z;
  title : string;
  slide : string;
  summary : string;
  cliffnotes : list string;
  read : bool;
  notes : list string;
  details : string
}.

(** [chapter.read = b] on a chapter object. *)
Definition set_read (b : bool) (c : Chapter) : Chapter :=
  {| id := id c; title := title c; slide := slide c; summary := summary c;
     cliffnotes := cliffnotes c; read := b; notes := notes c;
     details := details c |}.

(** [chapter.notes.push(note)] on a chapter object. *)
Definition push_note (note : string) (c : Chapter) : Chapter :=
  {| id := id c; title := title c; slide := slide c; summary := summary c;
     cliffnotes := cliffnotes c; read := read c; notes := notes c ++ [note];
     details := details c |}.

(** [l.map(c => c.id)] *)
Definition ids (l : list Chapter) : list Z := id <$> l.

(** [l.filter(c => c.read).length] *)
Definition read_count (l : list Chapter) : Z :=
  Z.of_nat (length (filter (fun c => read c = true) l)).

(** [Array.prototype.slice(start, end)] with its treatment of negative and
    out-of-range indices. *)
Definition js_slice {A} (l : list A) (s e : Z) : list A :=
  let len := Z.of_nat (length l) in
  let k := if s <? 0 then Z.max (len + s) 0 else Z.min s len in
  let fin := if e <? 0 then Z.max (len + e) 0 else Z.min e len in
  take (Z.to_nat (fin - k)) (drop (Z.to_nat k) l).

(** ** The chapter store: the Express server *)

Module Server.

(** [let chapters = [...]] : the process-wide array. *)
Definition store := list Chapter.

(** An HTTP response of the chapter routes: [res.json(chapter)] or
    [res.status(404).json({ error: 'Chapter not found' })]. *)
Inductive response :=
| Json (c : Chapter)
| NotFound.

(** [chapters.find(c => c.id === id)]; [None] for the id stands for
    the [NaN] that [parseInt] gives on a non-numeric route parameter,
    which is [===] to no number. *)
Fixpoint find (i : option Z) (chapters : store) : option Chapter :=
  match chapters with
  | [] => None
  | c :: rest =>
      match i with
      | Some n => if Z.eqb (id c) n then Some c else find i rest
      | None => find i rest
      end
  end.

(** The in-place mutation of the object that [find] returned: the array
    afterwards holds the mutated object at the place of the first match. *)
Fixpoint mutate_found (i : option Z) (f : Chapter -> Chapter)
    (chapters : store) : store :=
  match chapters with
  | [] => []
  | c :: rest =>
      match i with
      | Some n =>
          if Z.eqb (id c) n then f c :: rest
          else c :: mutate_found i f rest
      | None => c :: mutate_found i f rest
      end
  end.

(** [app.get('/api/chapters/:id')] *)
Definition get_chapter (i : option Z) (chapters : store) : response :=
  match find i chapters with
  | Some chapter => Json chapter
  | None => NotFound
  end.

(** [x || d] on the result of [parseInt]: [NaN] and [0] are falsy. *)
Definition or_default (x : option Z) (d : Z) : Z :=
  match x with
  | Some 0 => d
  | Some n => n
  | None => d
  end.

(** [app.get('/api/chapters')]: the page and the total. *)
Definition get_chapters (page_q limit_q : option Z) (chapters : store)
    : list Chapter * Z :=
  let page := or_default page_q 1 in
  let limit := or_default limit_q 5 in
  let start := (page - 1) * limit in
  let end_ := start + limit in
  let data :=
    if start <? Z.of_nat (length chapters)
    then js_slice chapters start end_ else [] in
  (data, Z.of_nat (length chapters)).

(** [app.patch('/api/chapters/:id')] with [req.body.read = b]. *)
Definition patch_chapter (i : option Z) (b : bool) (chapters : store)
    : response * store :=
  match find i chapters with
  | Some chapter =>
      (Json (set_read b chapter), mutate_found i (set_read b) chapters)
  | None => (NotFound, chapters)
  end.

(** [app.post('/api/chapters/:id/notes')] with [req.body.note = note]. *)
Definition post_note (i : option Z) (note : string) (chapters : store)
    : response * store :=
  match find i chapters with
  | Some chapter =>
      (Json (push_note note chapter),
       mutate_found i (push_note note) chapters)
  | None => (NotFound, chapters)
  end.

End Server.

(** ** The page-state client: the [App] component *)

(** What [await fetch(...)], the [res.ok] test and [await res.json()]
    leave a handler with. *)
Inductive fetched (A : Type) :=
| Ok (body : A)
| NotOk
| Rejected (msg : string).
Arguments Ok {A} body.
Arguments NotOk {A}.
Arguments Rejected {A} msg.

(** The requests a client sends to the store. *)
Inductive call :=
| ListPage (page limit : Z)
| PatchRead (id_num : Z) (b : bool)
| PostNote (id_num : Z) (note : string).

(** What the scroll listener reads from [window] and [document]. *)
Record Viewport := mkViewport {
  innerHeight : Z;
  scrollTop : Z;
  offsetHeight : Z
}.

(** [window.innerHeight + document.documentElement.scrollTop >=
     document.documentElement.offsetHeight - 100] *)
Definition near_bottom (v : Viewport) : bool :=
  offsetHeight v - 100 <=? innerHeight v + scrollTop v.

Module App.

(** The [useState] cells of the component. *)
Record State := mkState {
  chs : list Chapter;
  load : bool;
  pg : Z;
  has_more : bool;
  prog : Z;
  err_msg : option string
}.

(** The initial values given to [useState]. *)
Definition initial : State :=
  {| chs := []; load := true; pg := 1; has_more := true; prog := 0;
     err_msg := None |}.

Definition limit : Z := 5.

Definition setChs (f : list Chapter -> list Chapter) (s : State) : State :=
  {| chs := f (chs s); load := load s; pg := pg s; has_more := has_more s;
     prog := prog s; err_msg := err_msg s |}.
Definition setLoad (b : bool) (s : State) : State :=
  {| chs := chs s; load := b; pg := pg s; has_more := has_more s;
     prog := prog s; err_msg := err_msg s |}.
Definition setPg (f : Z -> Z) (s : State) : State :=
  {| chs := chs s; load := load s; pg := f (pg s); has_more := has_more s;
     prog := prog s; err_msg := err_msg s |}.
Definition setHasMore (b : bool) (s : State) : State :=
  {| chs := chs s; load := load s; pg := pg s; has_more := b;
     prog := prog s; err_msg := err_msg s |}.
Definition setProg (n : Z) (s : State) : State :=
  {| chs := chs s; load := load s; pg := pg s; has_more := has_more s;
     prog := n; err_msg := err_msg s |}.
Definition setErrMsg (m : string) (s : State) : State :=
  {| chs := chs s; load := load s; pg := pg s; has_more := has_more s;
     prog := prog s; err_msg := Some m |}.

(** The updater passed to [setChs] in [fetchChapters]:
    [existingIds = new Set(prev.map(c => c.id))],
    [newChs = data.filter(c => !existingIds.has(c.id))],
    [[...prev, ...newChs]]. *)
Definition existingIds (prev : list Chapter) : gset Z :=
  list_to_set (ids prev).

Definition merge (prev data : list Chapter) : list Chapter :=
  let newChs := filter (fun c => id c ∉ existingIds prev) data in
  prev ++ newChs.

(** [data.filter(c => !chs.some(existing => existing.id === c.id))] *)
Definition unseen (chs0 data : list Chapter) : list Chapter :=
  filter (fun c => ¬ Exists (fun existing => id existing = id c) chs0) data.

(** [fetchChapters(p)] up to its first [await]: [setLoad(true)] and the
    request. *)
Definition fetchChapters_call (p : Z) : call := ListPage p limit.
Definition fetchChapters_begin (s : State) : State := setLoad true s.

(** The rest of [fetchChapters] once the request has settled.  [chs0] is
    the [chs] of the render that created this [fetchChapters]; the
    updater of [setChs] alone sees the current list. *)
Definition fetchChapters_end (chs0 : list Chapter)
    (res : fetched (list Chapter * Z)) (s : State) : State :=
  match res with
  | Ok (data, total) =>
      let s1 := setChs (fun prev => merge prev data) s in
      let s2 :=
        setHasMore
          (Z.of_nat (length chs0) + Z.of_nat (length (unseen chs0 data))
             <? total) s1 in
      let s3 := setProg (read_count (chs0 ++ unseen chs0 data)) s2 in
      setLoad false s3
  | NotOk => setLoad false (setErrMsg "Failed to fetch chaps" s)
  | Rejected msg => setLoad false (setErrMsg msg s)
  end.

(** [handleScroll]; [r_has_more] and [r_load] are the values the listener
    closed over when the effect with dependencies [[has_more, load]]
    registered it. *)
Definition handleScroll (r_has_more r_load : bool) (v : Viewport)
    (s : State) : State :=
  if near_bottom v && r_has_more && negb r_load
  then setPg (fun prev => prev + 1) s
  else s.

(** [handle_toggle_read(id_num, currRead)]: the request, and the rest of
    the handler once it has settled; [chs0] is the [chs] the handler
    closed over. *)
Definition handle_toggle_read_call (id_num : Z) (currRead : bool) : call :=
  PatchRead id_num (negb currRead).

Definition handle_toggle_read_end (chs0 : list Chapter) (id_num : Z)
    (currRead : bool) (res : fetched Chapter) (s : State) : State :=
  match res with
  | Ok updatedCh =>
      let s1 :=
        setChs (fmap (fun c => if id c =? id_num then updatedCh else c)) s in
      setProg (read_count chs0 + (if negb currRead then 1 else -1)) s1
  | NotOk => setErrMsg "Failed to toggle read" s
  | Rejected msg => setErrMsg msg s
  end.

(** [add_note(id_num, note_txt)]: [if (!note_txt) return;] then the
    request; the empty string is the only falsy string. *)
Definition add_note_call (id_num : Z) (note_txt : string) : option call :=
  if decide (note_txt = "") then None else Some (PostNote id_num note_txt).

Definition add_note_end (id_num : Z) (res : fetched Chapter) (s : State)
    : State :=
  match res with
  | Ok updatedCh =>
      setChs (fmap (fun c => if id c =? id_num then updatedCh else c)) s
  | NotOk => setErrMsg "Failed to add note" s
  | Rejected msg => setErrMsg msg s
  end.

End App.


(** ** The query-library client: [useChapters] and its callers *)

Module UseChapters.

Record ChaptersResponse := mkResponse {
  data : list Chapter;
  total : Z
}.

(** [getNextPageParam: (lastPage, allPages) =>
      lastPage.data.length > 0 ? allPages.length + 1 : undefined] *)
Definition getNextPageParam (lastPage : ChaptersResponse)
    (allPages : list ChaptersResponse) : option Z :=
  if 0 <? Z.of_nat (length (data lastPage))
  then Some (Z.of_nat (length allPages) + 1)
  else None.

(** [select]: [pages: data?.pages.flatMap(page => page.data)] *)
Definition select (pages : list ChaptersResponse) : list Chapter :=
  flat_map data pages.

(** [chapters: data?.pages || []] *)
Definition chapters (pages : list ChaptersResponse) : list Chapter :=
  select pages.


(** [toggleRead: (id, read) => toggleMutation.mutate({ id, read })] with
    [mutationFn: toggleRead], the PATCH of the api module. *)
Definition toggleRead_call (id_num : Z) (b : bool) : call :=
  PatchRead id_num b.

(** The [onClick] of the Add Note button in [ChapterNotes]:
    [if (newNote) { onAddNote(newNote); setNewNote('') }], where
    [onAddNote] is [note => addNote(chapter.id, note)]. *)
Definition addNote_onClick (chapter_id : Z) (newNote : string)
    : option call :=
  if decide (newNote = "") then None else Some (PostNote chapter_id newNote).

(** The page parameter of the next [fetchNextPage()], as the query library
    derives it from the pages held in its cache: [getNextPageParam] of the
    last page, and the first page parameter [1] when no page is held. *)
Definition nextPageParam (pages : list ChaptersResponse) : option Z :=
  match last pages with
  | Some lastPage => getNextPageParam lastPage pages
  | None => Some 1
  end.

(** [hasNextPage] *)
Definition hasNextPage (pages : list ChaptersResponse) : bool :=
  bool_decide (is_Some (nextPageParam pages)).

(** [queryFn: fetchChapters] against the server, with [limit = 5]. *)
Definition fetchChapters (srv : Server.store) (pageParam : Z)
    : ChaptersResponse :=
  let '(d, t) := Server.get_chapters (Some pageParam) (Some 5) srv in
  {| data := d; total := t |}.

(** One awaited [fetchNextPage()] that succeeds: the page is appended to
    the cached pages; nothing is requested when there is no next page. *)
Definition fetchNextPage (srv : Server.store)
    (pages : list ChaptersResponse) : list ChaptersResponse :=
  match nextPageParam pages with
  | Some p => pages ++ [fetchChapters srv p]
  | None => pages
  end.

End UseChapters.

(** ** A session of the page-state client against the server *)

Module Session.
Import App.

(** A request that has been sent and not yet settled, with what the
    suspended handler closed over. *)
Inductive pending_req :=
| FetchReq (p : Z) (chs0 : list Chapter)
| ToggleReq (id_num : Z) (currRead : bool) (chs0 : list Chapter)
| NoteReq (id_num : Z) (note_txt : string).

Definition call_of (r : pending_req) : call :=
  match r with
  | FetchReq p _ => fetchChapters_call p
  | ToggleReq id_num currRead _ => handle_toggle_read_call id_num currRead
  | NoteReq id_num note_txt => PostNote id_num note_txt
  end.

(** [state]: the current [useState] cells.  [view]: the state as of the
    last committed render, which is what the handlers and listeners of that
    render closed over ([None] before the component has mounted).
    [calls]: every request sent so far.  [pending]: the requests not yet
    settled. *)
Record World := mkWorld {
  state : State;
  view : option State;
  server : Server.store;
  calls : list call;
  pending : list pending_req
}.

Definition start (srv : Server.store) : World :=
  {| state := initial; view := None; server := srv; calls := [];
     pending := [] |}.

Definition send (r : pending_req) (s : State) (w : World) : World :=
  {| state := s; view := view w; server := server w;
     calls := calls w ++ [call_of r]; pending := pending w ++ [r] |}.

(** React commits a render of the current state and runs the effects:
    [useEffect(() => { fetchChapters(pg) }, [pg])] runs on mount and when
    [pg] differs from the previous render; the scroll listener is
    registered again with the [has_more] and [load] of this render. *)
Definition commit (w : World) : World :=
  let r := state w in
  let pg_changed :=
    match view w with
    | None => true
    | Some r0 => negb (pg r0 =? pg r)
    end in
  let w1 :=
    {| state := r; view := Some r; server := server w; calls := calls w;
       pending := pending w |} in
  if pg_changed
  then send (FetchReq (pg r) (chs r)) (fetchChapters_begin r) w1
  else w1.

(** A scroll event reaches the registered listener. *)
Definition scroll (v : Viewport) (w : World) : World :=
  match view w with
  | None => w
  | Some r =>
      {| state := handleScroll (has_more r) (load r) v (state w);
         view := view w; server := server w; calls := calls w;
         pending := pending w |}
  end.

(** [onToggleRead(ch.id, ch.read)] from a switch of the rendered page. *)
Definition click_toggle (id_num : Z) (currRead : bool) (w : World) : World :=
  match view w with
  | None => w
  | Some r => send (ToggleReq id_num currRead (chs r)) (state w) w
  end.

(** [onAddNote(ch.id, input.value)] from the Add Note button. *)
Definition submit_note (id_num : Z) (note_txt : string) (w : World)
    : World :=
  match view w, add_note_call id_num note_txt with
  | Some _, Some _ => send (NoteReq id_num note_txt) (state w) w
  | _, _ => w
  end.

Definition to_fetched (r : Server.response) : fetched Chapter :=
  match r with
  | Server.Json c => Ok c
  | Server.NotFound => NotOk
  end.

(** The server handles request [r] and the suspended handler resumes with
    the response; with [net = Some msg] the request fails in transit
    instead and [fetch] rejects with [msg]. *)
Definition resume (r : pending_req) (net : option string)
    (srv : Server.store) (s : State) : State * Server.store :=
  match r, net with
  | FetchReq p chs0, None =>
      (fetchChapters_end chs0
         (Ok (Server.get_chapters (Some p) (Some limit) srv)) s, srv)
  | FetchReq p chs0, Some msg =>
      (fetchChapters_end chs0 (Rejected msg) s, srv)
  | ToggleReq id_num currRead chs0, None =>
      let '(resp, srv') :=
        Server.patch_chapter (Some id_num) (negb currRead) srv in
      (handle_toggle_read_end chs0 id_num currRead (to_fetched resp) s, srv')
  | ToggleReq id_num currRead chs0, Some msg =>
      (handle_toggle_read_end chs0 id_num currRead (Rejected msg) s, srv)
  | NoteReq id_num note_txt, None =>
      let '(resp, srv') := Server.post_note (Some id_num) note_txt srv in
      (add_note_end id_num (to_fetched resp) s, srv')
  | NoteReq id_num note_txt, Some msg =>
      (add_note_end id_num (Rejected msg) s, srv)
  end.

(** The [k]-th pending request settles. *)
Definition settle (k : nat) (net : option string) (w : World) : World :=
  match pending w !! k with
  | None => w
  | Some r =>
      let '(s, srv) := resume r net (server w) (state w) in
      {| state := s; view := view w; server := srv; calls := calls w;
         pending := delete k (pending w) |}
  end.

(** The page requests among a list of requests. *)
Definition page_requests (l : list pending_req) : list Z :=
  omap (fun r => match r with FetchReq p _ => Some p | _ => None end) l.

Definition page_calls (l : list call) : list Z :=
  omap (fun c => match c with ListPage p _ => Some p | _ => None end) l.

(** The oldest pending request settles without a transport failure and
    React renders the result. *)
Definition await (w : World) : World := commit (settle 0 None w).

(** The component mounts against the server [srv] and its first fetch is
    awaited. *)
Definition mount (srv : Server.store) : World := await (commit (start srv)).

(** A scroll event with the viewport [v], the render and effects it
    causes, and the request so issued (if any) awaited. *)
Definition requestNextPage (v : Viewport) (w : World) : World :=
  await (commit (scroll v w)).

End Session.


(** ** Definitions used to state the properties *)

(** The merge as the specification words it: [accumulated] followed by
    every chapter of [incoming] whose id is not already present in
    [accumulated], in [incoming]'s order. *)
Definition merge_spec (accumulated incoming : list Chapter) : list Chapter :=
  accumulated ++ filter (fun c => id c ∉ ids accumulated) incoming.

(** [count(c in accumulated where c.read == true)] is [read_count]; the
    number of page requests in a log of calls is the length of
    [Session.page_calls]. *)

(** Whitespace that [String.prototype.trim] removes, within ASCII: space,
    tab, line feed, vertical tab, form feed, carriage return. *)
Definition is_space (a : Ascii.ascii) : bool :=
  match Ascii.nat_of_ascii a with
  | 32%nat | 9%nat | 10%nat | 11%nat | 12%nat | 13%nat => true
  | _ => false
  end.

Fixpoint trim_start (s : string) : string :=
  match s with
  | EmptyString => EmptyString
  | String a rest => if is_space a then trim_start rest else s
  end.

Fixpoint trim_end (s : string) : string :=
  match s with
  | EmptyString => EmptyString
  | String a rest =>
      match trim_end rest with
      | EmptyString => if is_space a then EmptyString else String a EmptyString
      | rest' => String a rest'
      end
  end.

Definition trim (s : string) : string := trim_end (trim_start s).

(** "[text] is empty after trimming" *)
Definition empty_after_trim (text : string) : Prop := trim text = "".

(** [ceil(N / k)] for [k > 0] *)
Definition ceil_div (N k : Z) : Z := (N + k - 1) / k.

(** A chapter with the given id and read flag and nothing else, as the
    mocks of the test suites build them. *)
Definition sample_chapter (n : Z) (r : bool) : Chapter :=
  {| id := n; title := ""; slide := ""; summary := ""; cliffnotes := [];
     read := r; notes := []; details := "" |}.

(** A store of [n] unread chapters with ids [1 .. n]. *)
Definition sample_store (n : nat) : Server.store :=
  (fun i => sample_chapter i false) <$> seqZ 1 (Z.of_nat n).

(** A viewport scrolled to the bottom of the document. *)
Definition at_bottom : Viewport :=
  {| innerHeight := 1000; scrollTop := 1000; offsetHeight := 1900 |}.

(** The session in which the first [j] pages have been fetched from [srv]
    and rendered, and nothing is outstanding. *)
Definition loaded (srv : Server.store) (j : nat) : Session.World :=
  let s :=
    {| App.chs := take (5 * j) srv;
       App.load := false;
       App.pg := Z.of_nat j;
       App.has_more := Z.of_nat (5 * j) <? Z.of_nat (length srv);
       App.prog := read_count (take (5 * j) srv);
       App.err_msg := None |} in
  {| Session.state := s; Session.view := Some s; Session.server := srv;
     Session.calls := (fun p => ListPage p 5) <$> seqZ 1 (Z.of_nat j);
     Session.pending := [] |}.

(** The session after [j] page fetches, each awaited: none before the
    component mounts, the mount fetch, then one per scroll trigger with the
    viewport [v]. *)
Definition after_fetches (srv : Server.store) (v : Viewport) (j : nat)
    : Session.World :=
  match j with
  | O => Session.start srv
  | S j' => Nat.iter j' (Session.requestNextPage v) (Session.mount srv)
  end.

(** ** Sequences of requests and of events *)

(** The routes of the server that read or write the [chapters] array, as
    requests with their parsed parameters. *)
Inductive route :=
| GetChapter (i : option Z)
| GetChapters (page_q limit_q : option Z)
| PatchChapter (i : option Z) (b : bool)
| PostChapterNote (i : option Z) (note : string).

(** The array after the server has handled one request, and after it has
    handled a list of them in order. *)
Definition served (r : route) (chapters : Server.store) : Server.store :=
  match r with
  | GetChapter _ => chapters
  | GetChapters _ _ => chapters
  | PatchChapter i b => (Server.patch_chapter i b chapters).2
  | PostChapterNote i note => (Server.post_note i note chapters).2
  end.

Definition served_all (rs : list route) (chapters : Server.store)
    : Server.store :=
  foldl (fun s r => served r s) chapters rs.

(** The fields of a chapter that no route assigns. *)
Definition fixed_fields (c : Chapter)
    : Z * string * string * string * list string * string :=
  (id c, title c, slide c, summary c, cliffnotes c, details c).

(** What can happen to a session of the page-state client: a render is
    committed, a scroll event arrives, a switch or the Add Note button is
    used, a pending request settles. *)
Inductive event :=
| Commit
| Scroll (v : Viewport)
| ClickToggle (id_num : Z) (currRead : bool)
| SubmitNote (id_num : Z) (note_txt : string)
| Settle (k : nat) (net : option string).

Definition step (e : event) (w : Session.World) : Session.World :=
  match e with
  | Commit => Session.commit w
  | Scroll v => Session.scroll v w
  | ClickToggle id_num currRead => Session.click_toggle id_num currRead w
  | SubmitNote id_num note_txt => Session.submit_note id_num note_txt w
  | Settle k net => Session.settle k net w
  end.

Definition run (es : list event) (w : Session.World) : Session.World :=
  foldl (fun w e => step e w) w es.


(** A list of page numbers in strictly ascending order. *)
Definition ascending (l : list Z) : Prop :=
  ∀ i j p q, (i < j)%nat → l !! i = Some p → l !! j = Some q → p < q.

(** The page number of the last committed render, 0 before the mount. *)
Definition seen_pg (w : Session.World) : Z :=
  match Session.view w with
  | Some r => App.pg r
  | None => 0
  end.

(** The page requests made so far are in ascending order and none lies
    beyond the page number of the last render, which the current page
    number has reached or passed. *)
Definition pages_in_order (w : Session.World) : Prop :=
  ascending (Session.page_calls (Session.calls w))
  ∧ Forall (fun p => 1 ≤ p ≤ seen_pg w) (Session.page_calls (Session.calls w))
  ∧ seen_pg w ≤ App.pg (Session.state w)
  ∧ 1 ≤ App.pg (Session.state w).

(** The cached list repeats no id and holds only ids of the store [srv0],
    whose ids the server still has, in the same order. *)
Definition cache_sound (srv0 : Server.store) (w : Session.World) : Prop :=
  ids (Session.server w) = ids srv0
  ∧ NoDup (ids (App.chs (Session.state w)))
  ∧ ∀ n, n ∈ ids (App.chs (Session.state w)) → n ∈ ids srv0.


(** What the [App] component of the page-state client returns:
    [if (load && chs.length === 0) return <div>Loading...</div>],
    [if (err_msg) return <div>Error: {err_msg}</div>], and otherwise the
    routes with the header and the chapter list. *)
Inductive screen :=
| Loading
| ErrorScreen (msg : string)
| Routes.

Definition render (s : App.State) : screen :=
  if App.load s && bool_decide (App.chs s = []) then Loading
  else
    match App.err_msg s with
    | Some "" => Routes
    | Some msg => ErrorScreen msg
    | None => Routes
    end.


(** * Properties *)

(** Closed decidable facts are settled by evaluation. *)
Ltac by_compute := apply (bool_decide_unpack _); vm_compute; exact I.

(** One step of a session on explicit records. *)
Ltac session_step :=
  cbn [Session.view Session.state Session.server Session.calls
       Session.pending Session.call_of Session.resume
       App.pg App.chs App.load App.has_more App.err_msg App.prog
       App.setPg App.setLoad App.fetchChapters_begin App.fetchChapters_call
       app lookup list_lookup delete list_delete negb andb].

(** Case analysis on what a pending request resumes with. *)
Ltac resume_cases r net :=
  destruct r as [p chs0|id_num currRead chs0|id_num note_txt],
    net as [msg|];
  cbn [Session.resume];
  repeat match goal with
    | |- context [Server.get_chapters ?a ?b ?c] =>
        destruct (Server.get_chapters a b c) as [data total] eqn:?
    | |- context [Server.patch_chapter ?a ?b ?c] =>
        destruct (Server.patch_chapter a b c) as [[u|] srv'] eqn:?
    | |- context [Server.post_note ?a ?b ?c] =>
        destruct (Server.post_note a b c) as [[u|] srv'] eqn:?
    end;
  cbn [Session.to_fetched fst snd].

(** ** Merge / dedup *)

Lemma existingIds_has (prev : list Chapter) (n : Z) :
  n ∈ App.existingIds prev ↔ n ∈ ids prev.
Proof. unfold App.existingIds. apply elem_of_list_to_set. Qed.

Lemma merge_refines_spec (A P : list Chapter) :
  App.merge A P = merge_spec A P.
Proof.
  unfold App.merge, merge_spec. f_equal.
  apply list_filter_iff. intros c. by rewrite existingIds_has.
Qed.

Lemma ids_app (l k : list Chapter) : ids (l ++ k) = ids l ++ ids k.
Proof. unfold ids. apply fmap_app. Qed.

Lemma elem_of_ids (l : list Chapter) (c : Chapter) : c ∈ l → id c ∈ ids l.
Proof. unfold ids. apply list_elem_of_fmap_2. Qed.

(** Nothing of a page is new once that page has been merged. *)
Lemma merged_page_is_stale (A P : list Chapter) :
  filter (fun c => id c ∉ ids (merge_spec A P)) P = [].
Proof.
  unfold merge_spec.
  assert (Hsub : ∀ c, c ∈ P →
            id c ∈ ids (A ++ filter (fun c => id c ∉ ids A) P)).
  { intros c Hc. rewrite ids_app. destruct (decide (id c ∈ ids A)) as [Hin|Hnin].
    - apply elem_of_app. by left.
    - apply elem_of_app. right. apply elem_of_ids.
      apply list_elem_of_filter. by split. }
  revert Hsub. generalize (A ++ filter (fun c => id c ∉ ids A) P) as B.
  intros B. induction P as [|c P IH]; intros Hsub; [done|].
  rewrite filter_cons_False.
  - apply IH. intros c' Hc'. apply Hsub. by right.
  - intros Hn. apply Hn, Hsub. by left.
Qed.

(** C3. Merge is order-preserving and idempotent: the merge that
    [fetchChapters] passes to [setChs] returns the accumulated list
    followed by exactly those chapters of the page whose id the accumulated
    list does not hold, in the page's order, and merging the same page a
    second time changes nothing.  Uniqueness of the ids of the accumulated
    list is not needed for either part. *)
Theorem merge_order_preserving_idempotent (A P : list Chapter) :
  App.merge A P = merge_spec A P
  ∧ App.merge (App.merge A P) P = App.merge A P.
Proof.
  split; [apply merge_refines_spec|].
  rewrite (merge_refines_spec (App.merge A P) P), (merge_refines_spec A P).
  unfold merge_spec at 1. rewrite merged_page_is_stale. apply app_nil_r.
Qed.

(** ** The server's mutation routes *)

Lemma find_Some_split (chapters : Server.store) (n : Z) (c : Chapter) :
  Server.find (Some n) chapters = Some c →
  ∃ before after,
    chapters = before ++ c :: after ∧ id c = n ∧ n ∉ ids before.
Proof.
  induction chapters as [|x rest IH]; simpl; [done|].
  destruct (Z.eqb_spec (id x) n) as [Heq|Hne].
  - intros [= ->]. exists [], rest. split_and!; [done|done|]. apply not_elem_of_nil.
  - intros Hf. destruct (IH Hf) as (before & after & -> & Hid & Hnin).
    exists (x :: before), after. split_and!; [done|done|].
    unfold ids. rewrite fmap_cons. apply not_elem_of_cons. by split.
Qed.

Lemma find_None_iff (chapters : Server.store) (n : Z) :
  Server.find (Some n) chapters = None ↔ n ∉ ids chapters.
Proof.
  unfold ids. induction chapters as [|x rest IH]; simpl.
  - split; [intros _; apply not_elem_of_nil|done].
  - rewrite not_elem_of_cons. destruct (Z.eqb_spec (id x) n) as [Heq|Hne].
    + split; [done|]. intros [Hn _]. by destruct Hn.
    + rewrite IH. intuition congruence.
Qed.

Lemma mutate_found_split (f : Chapter → Chapter) (before after : Server.store)
    (c : Chapter) :
  id c ∉ ids before →
  Server.mutate_found (Some (id c)) f (before ++ c :: after)
  = before ++ f c :: after.
Proof.
  unfold ids. induction before as [|x before IH]; simpl.
  - intros _. by rewrite Z.eqb_refl.
  - rewrite not_elem_of_cons. intros [Hne Hnin].
    destruct (Z.eqb_spec (id x) (id c)) as [Heq|_]; [by destruct Hne|].
    by rewrite IH.
Qed.

(** A route parameter that [parseInt] cannot read matches no chapter. *)
Lemma find_NaN (chapters : Server.store) : Server.find None chapters = None.
Proof. induction chapters as [|c rest IH]; [done|exact IH]. Qed.

(** C10. Frame effect of the server's mutation routes.  For an id held by
    the store, PATCH assigns the boolean of the request body to the [read]
    field of the first chapter with that id (it does not flip it), keeps
    every other field of that chapter and every other entry of the array,
    and answers with the updated chapter; POST of a note appends exactly
    that one note to the chapter's [notes] and changes nothing else.  For
    an id the store does not hold, both routes answer 404 and leave the
    array as it was. *)
Theorem server_mutation_frame (chapters : Server.store) (n : Z) (b : bool)
    (note : string) :
  (n ∈ ids chapters →
   ∃ before c after,
     chapters = before ++ c :: after ∧ id c = n ∧ (n ∉ ids before)
     ∧ Server.patch_chapter (Some n) b chapters
       = (Server.Json (set_read b c), before ++ set_read b c :: after)
     ∧ read (set_read b c) = b
     ∧ (id (set_read b c), title (set_read b c), slide (set_read b c),
        summary (set_read b c), cliffnotes (set_read b c),
        notes (set_read b c), details (set_read b c))
       = (id c, title c, slide c, summary c, cliffnotes c, notes c, details c)
     ∧ Server.post_note (Some n) note chapters
       = (Server.Json (push_note note c), before ++ push_note note c :: after)
     ∧ notes (push_note note c) = notes c ++ [note]
     ∧ (id (push_note note c), title (push_note note c),
        slide (push_note note c), summary (push_note note c),
        cliffnotes (push_note note c), read (push_note note c),
        details (push_note note c))
       = (id c, title c, slide c, summary c, cliffnotes c, read c, details c))
  ∧ (n ∉ ids chapters →
     Server.patch_chapter (Some n) b chapters = (Server.NotFound, chapters)
     ∧ Server.post_note (Some n) note chapters = (Server.NotFound, chapters)).
Proof.
  split.
  - intros Hin.
    destruct (Server.find (Some n) chapters) as [c|] eqn:Hfind.
    2:{ apply find_None_iff in Hfind. done. }
    destruct (find_Some_split _ _ _ Hfind) as (before & after & Hch & Hid & Hnin).
    exists before, c, after. subst n.
    unfold Server.patch_chapter, Server.post_note. rewrite Hfind.
    rewrite Hch, !mutate_found_split by done.
    split_and!; reflexivity || done.
  - intros Hnin. apply find_None_iff in Hnin.
    unfold Server.patch_chapter, Server.post_note. by rewrite Hnin.
Qed.

Lemma server_mutation_frame_witness :
  3 ∈ ids (sample_store 4)
  ∧ (∃ before c after,
       sample_store 4 = before ++ c :: after
       ∧ snd (Server.patch_chapter (Some 3) true (sample_store 4))
         = before ++ set_read true c :: after)
  ∧ (9 ∉ ids (sample_store 4))
  ∧ Server.post_note (Some 9) "n" (sample_store 4)
    = (Server.NotFound, sample_store 4).
Proof.
  assert (Hin : 3 ∈ ids (sample_store 4)) by by_compute.
  assert (Hnin : 9 ∉ ids (sample_store 4)) by by_compute.
  destruct (server_mutation_frame (sample_store 4) 3 true "n") as [Hpresent _].
  destruct (server_mutation_frame (sample_store 4) 9 true "n") as [_ Habsent].
  destruct (Hpresent Hin) as (before & c & after & Hsplit & _ & _ & Hpatch & _).
  split_and!; [exact Hin| |exact Hnin|exact (proj2 (Habsent Hnin))].
  exists before, c, after. split; [exact Hsplit|]. by rewrite Hpatch.
Defined.

(** ** Adding a note *)

(** C4, as stated, fails: a text of three spaces is empty after trimming,
    yet [add_note] (and the Add Note button of the query-library client)
    sends it to the store, and the server appends it to chapter 5. *)
Lemma add_note_blank_counterexample :
  empty_after_trim "   "
  ∧ App.add_note_call 5 "   " = Some (PostNote 5 "   ")
  ∧ UseChapters.addNote_onClick 5 "   " = Some (PostNote 5 "   ")
  ∧ (let w :=
       Session.await
         (Session.submit_note 5 "   " (Session.mount (sample_store 5))) in
     Session.calls w = [ListPage 1 5; PostNote 5 "   "]
     ∧ notes <$> App.chs (Session.state w) = [[]; []; []; []; ["   "]]).
Proof. cbv zeta. split_and!; vm_compute; reflexivity. Qed.

(** C4, amended. The only text that [add_note] and the Add Note button
    reject is the empty string: for it no request is made and the session
    is left exactly as it was; every other text, whitespace included, is
    sent to the store as it is. *)
Theorem add_note_rejects_empty_string (id_num : Z) (w : Session.World) :
  App.add_note_call id_num "" = None
  ∧ UseChapters.addNote_onClick id_num "" = None
  ∧ Session.submit_note id_num "" w = w
  ∧ (∀ text,
       (App.add_note_call id_num text = None ↔ text = "")
       ∧ (UseChapters.addNote_onClick id_num text = None ↔ text = "")
       ∧ (text ≠ "" →
          App.add_note_call id_num text = Some (PostNote id_num text)
          ∧ UseChapters.addNote_onClick id_num text
            = Some (PostNote id_num text))).
Proof.
  split_and!; try reflexivity.
  - unfold Session.submit_note. simpl. by destruct (Session.view w).
  - intros text. unfold App.add_note_call, UseChapters.addNote_onClick.
    destruct (decide (text = "")) as [->|Hne]; split_and!; try done.
    all: split; [intros [=]|done].
Qed.

Lemma add_note_rejects_empty_string_witness :
  "a" ≠ ""
  ∧ App.add_note_call 5 "a" = Some (PostNote 5 "a")
  ∧ Session.submit_note 5 "" (Session.mount (sample_store 5))
    = Session.mount (sample_store 5).
Proof.
  assert (Hne : "a" ≠ "") by discriminate.
  destruct (add_note_rejects_empty_string 5 (Session.mount (sample_store 5)))
    as (_ & _ & Hsame & Hall).
  destruct (Hall "a") as (_ & _ & Hsent).
  split_and!; [exact Hne|exact (proj1 (Hsent Hne))|exact Hsame].
Defined.

(** ** The derived read counter *)

Lemma replace_lookup (id_num : Z) (updatedCh : Chapter) (l : list Chapter)
    (k : nat) :
  ((fun c => if id c =? id_num then updatedCh else c) <$> l) !! k
  = (fun c => if decide (id c = id_num) then updatedCh else c) <$> (l !! k).
Proof.
  rewrite list_lookup_fmap. destruct (l !! k) as [c|]; simpl; [|done].
  destruct (Z.eqb_spec (id c) id_num); by case_decide.
Qed.

Lemma replace_absent (id_num : Z) (updatedCh : Chapter) (l : list Chapter) :
  id_num ∉ ids l →
  (fun c => if id c =? id_num then updatedCh else c) <$> l = l.
Proof.
  unfold ids. induction l as [|c l IH]; [done|].
  rewrite !fmap_cons, not_elem_of_cons. intros [Hne Hnin].
  rewrite IH by done. destruct (Z.eqb_spec (id c) id_num); congruence.
Qed.

Lemma unseen_eq (chs0 data : list Chapter) :
  App.unseen chs0 data = filter (fun c => id c ∉ ids chs0) data.
Proof.
  unfold App.unseen. apply list_filter_iff. intros c.
  rewrite Exists_exists. unfold ids. rewrite list_elem_of_fmap.
  split; intros Hn [x Hx]; apply Hn; exists x; intuition congruence.
Qed.

Lemma merge_unseen (chs0 data : list Chapter) :
  App.merge chs0 data = chs0 ++ App.unseen chs0 data.
Proof. by rewrite merge_refines_spec, unseen_eq. Qed.

(** When [fetchChapters] resumes with the list it closed over still
    current, the counter it stores is the full recount of the new list. *)
Lemma fetch_recounts (data : list Chapter) (total : Z) (s : App.State) :
  let s' := App.fetchChapters_end (App.chs s) (Ok (data, total)) s in
  App.prog s' = read_count (App.chs s').
Proof. simpl. by rewrite merge_unseen. Qed.



(** A toggle of a chapter that is not cached, answered by the store, moves
    the counter by one and leaves the list, and so its recount, as it is. *)
Lemma toggle_uncached_moves_counter (id_num : Z) (currRead : bool)
    (updatedCh : Chapter) (s : App.State) :
  id_num ∉ ids (App.chs s) →
  let s' :=
    App.handle_toggle_read_end (App.chs s) id_num currRead (Ok updatedCh) s in
  App.chs s' = App.chs s
  ∧ App.prog s' = read_count (App.chs s) + (if currRead then -1 else 1).
Proof.
  intros Hnin. simpl. rewrite replace_absent by done. by destruct currRead.
Qed.

(** C1 fails on [handle_toggle_read], which stores
    [chs.filter(c => c.read).length + (!currRead ? 1 : -1)] computed from
    the list it closed over.  First run: page 1 (ids 1-5) is loaded and
    chapter 7 is toggled from its detail route; the store accepts, no
    cached record has id 7, and the counter becomes 1 while no cached
    chapter is read.  Second run: chapters 1 and 2 are toggled from the
    same render; both handlers add 1 to the same stale count of 0, and the
    counter is 1 while two cached chapters are read. *)
Theorem toggle_read_counter_drift :
  (let w :=
     Session.await
       (Session.click_toggle 7 false (Session.mount (sample_store 12))) in
   ids (App.chs (Session.state w)) = [1; 2; 3; 4; 5]
   ∧ App.prog (Session.state w) = 1
   ∧ read_count (App.chs (Session.state w)) = 0)
  ∧ (let w :=
       Session.await
         (Session.settle 0 None
            (Session.click_toggle 2 false
               (Session.click_toggle 1 false
                  (Session.mount (sample_store 12))))) in
     read <$> App.chs (Session.state w) = [true; true; false; false; false]
     ∧ App.prog (Session.state w) = 1
     ∧ read_count (App.chs (Session.state w)) = 2).
Proof. cbv zeta. split_and!; vm_compute; reflexivity. Qed.

(** ** Duplicate ids *)

Lemma unseen_all_new (A P : list Chapter) :
  (∀ c, c ∈ P → id c ∉ ids A) →
  filter (fun c => id c ∉ ids A) P = P.
Proof.
  intros Hnew. induction P as [|c P IH]; [done|].
  rewrite filter_cons_True by (apply Hnew; by left).
  f_equal. apply IH. intros c' Hc'. apply Hnew. by right.
Qed.

Lemma ids_filter_sub (Q : Chapter → Prop) `{!∀ c, Decision (Q c)}
    (P : list Chapter) (n : Z) :
  n ∈ ids (filter Q P) → n ∈ ids P.
Proof.
  unfold ids. rewrite !list_elem_of_fmap. intros (c & -> & Hc).
  exists c. split; [done|]. by apply list_elem_of_filter in Hc as [_ ?].
Qed.

Lemma NoDup_ids_filter (Q : Chapter → Prop) `{!∀ c, Decision (Q c)}
    (P : list Chapter) :
  NoDup (ids P) → NoDup (ids (filter Q P)).
Proof.
  unfold ids. induction P as [|c P IH]; [done|].
  rewrite fmap_cons, NoDup_cons. intros [Hc HP].
  rewrite filter_cons. destruct (decide (Q c)); [|by apply IH].
  rewrite fmap_cons. apply NoDup_cons. split; [|by apply IH].
  intros Hin. apply Hc. by apply (ids_filter_sub Q) in Hin.
Qed.

(** The merge of the page-state client keeps ids unique, for a page that
    does not itself repeat an id. *)
Lemma merge_NoDup (A P : list Chapter) :
  NoDup (ids A) → NoDup (ids P) → NoDup (ids (App.merge A P)).
Proof.
  intros HA HP. rewrite merge_refines_spec. unfold merge_spec.
  rewrite ids_app. apply NoDup_app. split_and!; [done| |by apply NoDup_ids_filter].
  intros n HnA. unfold ids at 1. rewrite list_elem_of_fmap.
  intros (c & -> & Hc). by apply list_elem_of_filter in Hc as [? _].
Qed.

Lemma merge_pages_NoDup (pages : list (list Chapter)) :
  Forall (fun P => NoDup (ids P)) pages →
  NoDup (ids (foldl App.merge [] pages)).
Proof.
  assert (Hgen : ∀ A, NoDup (ids A) →
            Forall (fun P => NoDup (ids P)) pages →
            NoDup (ids (foldl App.merge A pages))).
  { induction pages as [|P pages IH]; intros A HA Hall; [done|].
    apply Forall_cons in Hall as [HP Hall]. simpl.
    apply IH; [by apply merge_NoDup|done]. }
  apply Hgen. apply NoDup_nil_2.
Qed.

(** C2 fails on the query-library client: [select] flattens the cached
    pages with [flatMap] and drops nothing.  When the second page fetched
    repeats the entries of the first (the response that the fetch mock of
    the test suites gives to every page request), the chapter list holds
    ids 1 and 2 twice; the merge of the page-state client on the same two
    pages holds them once. *)
Theorem select_keeps_duplicates :
  let P :=
    {| UseChapters.data := [sample_chapter 1 false; sample_chapter 2 true];
       UseChapters.total := 2 |} in
  UseChapters.nextPageParam [P] = Some 2
  ∧ ids (UseChapters.chapters [P; P]) = [1; 2; 1; 2]
  ∧ ¬ NoDup (ids (UseChapters.chapters [P; P]))
  ∧ ids (foldl App.merge [] [UseChapters.data P; UseChapters.data P]) = [1; 2].
Proof.
  cbv zeta. split_and!; try (vm_compute; reflexivity).
  by_compute.
Qed.

(** ** The fetch gate *)

(** The listener does nothing when the render it belongs to had [load] set
    or [has_more] cleared, and when the viewport is not near the bottom. *)
Lemma handleScroll_closed (r_has_more r_load : bool) (v : Viewport)
    (s : App.State) :
  r_load = true ∨ r_has_more = false ∨ near_bottom v = false →
  App.handleScroll r_has_more r_load v s = s.
Proof.
  unfold App.handleScroll.
  intros [-> | [-> | ->]]; by rewrite ?andb_false_r.
Qed.

Lemma scroll_closed (v : Viewport) (w : Session.World) (r : App.State) :
  Session.view w = Some r →
  App.load r = true ∨ App.has_more r = false →
  Session.scroll v w = w.
Proof.
  intros Hview Hgate. unfold Session.scroll. rewrite Hview.
  rewrite handleScroll_closed by tauto. destruct w; simpl in *. by subst.
Qed.

(** The listener changes nothing but [pg], and in particular never sets
    [load]: the flag it tests is raised later, inside [fetchChapters]. *)
Lemma handleScroll_frame (r_has_more r_load : bool) (v : Viewport)
    (s : App.State) :
  let s' := App.handleScroll r_has_more r_load v s in
  App.load s' = App.load s ∧ App.has_more s' = App.has_more s
  ∧ App.chs s' = App.chs s ∧ App.prog s' = App.prog s
  ∧ App.err_msg s' = App.err_msg s.
Proof. unfold App.handleScroll. simpl. by case_match. Qed.

(** Two events delivered to one registration of the listener with the gate
    open advance the page number twice. *)
Lemma handleScroll_twice (v : Viewport) (s : App.State) :
  near_bottom v = true →
  App.pg (App.handleScroll true false v (App.handleScroll true false v s))
  = App.pg s + 2.
Proof. intros Hv. unfold App.handleScroll. rewrite Hv. simpl. lia. Qed.

(** C5 fails on the scroll listener of the page-state client.  The gate
    [has_more && !load] reads the flags of the render that registered the
    listener, and the listener itself only increments [pg]; [load] is set
    by [fetchChapters], which the [[pg]] effect runs after the next render,
    and reaches the listener one render later still.  After page 1 has
    loaded: a scroll event at the bottom, the render that sends the request
    for page 2, and a second scroll event before the render that shows
    [load = true] leave the requests for pages 2 and 3 both outstanding.
    When both scroll events precede the render, [pg] goes from 1 to 3 and
    page 2 is never requested. *)
Theorem scroll_gate_reads_stale_load :
  (let w1 :=
     Session.commit (Session.scroll at_bottom (Session.mount (sample_store 12))) in
   let w2 := Session.commit (Session.scroll at_bottom w1) in
   Session.page_requests (Session.pending w1) = [2]
   ∧ App.load (Session.state w1) = true
   ∧ Session.scroll at_bottom w1 ≠ w1
   ∧ Session.page_requests (Session.pending w2) = [2; 3])
  ∧ (let w :=
       Session.commit
         (Session.scroll at_bottom
            (Session.scroll at_bottom (Session.mount (sample_store 12)))) in
     App.pg (Session.state w) = 3
     ∧ Session.page_calls (Session.calls w) = [1; 3]).
Proof.
  cbv zeta. split_and!; try (vm_compute; reflexivity).
  intros Heq. apply (f_equal (fun w => App.pg (Session.state w))) in Heq.
  vm_compute in Heq. discriminate.
Qed.

(** ** A failed page fetch *)

(** What [fetchChapters] does when the request fails: the message is
    stored, [load] is cleared, and the list, the page number, [has_more]
    and the counter are those of the state it resumed in. *)
Lemma fetch_failure_frame (chs0 : list Chapter)
    (res : fetched (list Chapter * Z)) (s : App.State) :
  (∀ body, res ≠ Ok body) →
  let s' := App.fetchChapters_end chs0 res s in
  is_Some (App.err_msg s') ∧ App.load s' = false
  ∧ App.chs s' = App.chs s ∧ App.pg s' = App.pg s
  ∧ App.has_more s' = App.has_more s ∧ App.prog s' = App.prog s.
Proof.
  intros Hfail. destruct res as [body| |msg]; simpl.
  - by destruct (Hfail body).
  - split_and!; eauto.
  - split_and!; eauto.
Qed.

(** C8 fails on the page-state client: the page number is advanced by the
    scroll listener before the request is made and is not taken back when
    the request fails.  After page 1 has loaded, the request for page 2
    fails in transit: the error is stored, [load] is cleared and the list
    still holds ids 1-5, but [pg] stays 2, so the next trigger requests
    page 3.  Page 2 is not requested again and chapters 6-10 never reach
    the list. *)
Theorem failed_fetch_skips_page :
  let w1 :=
    Session.commit (Session.scroll at_bottom (Session.mount (sample_store 12))) in
  let w2 := Session.commit (Session.settle 0 (Some "Failed to fetch") w1) in
  let w3 := Session.requestNextPage at_bottom w2 in
  Session.page_calls (Session.calls w1) = [1; 2]
  ∧ App.err_msg (Session.state w2) = Some "Failed to fetch"
  ∧ App.load (Session.state w2) = false
  ∧ ids (App.chs (Session.state w2)) = [1; 2; 3; 4; 5]
  ∧ App.pg (Session.state w2) = 2
  ∧ Session.page_calls (Session.calls w3) = [1; 2; 3]
  ∧ ids (App.chs (Session.state w3)) = [1; 2; 3; 4; 5; 11; 12].
Proof. cbv zeta. split_and!; vm_compute; reflexivity. Qed.

(** In the query-library client the next page parameter is computed from
    the pages that were fetched, so a failed fetch, which adds no page,
    leaves it where it was. *)
Lemma nextPageParam_counts_pages (pages : list UseChapters.ChaptersResponse)
    (p : Z) :
  UseChapters.nextPageParam pages = Some p → p = Z.of_nat (length pages) + 1.
Proof.
  unfold UseChapters.nextPageParam, UseChapters.getNextPageParam.
  destruct (last pages) as [lastPage|] eqn:Hlast.
  - case_match; [|done]. by intros [= <-].
  - apply last_None in Hlast as ->. by intros [= <-].
Qed.

(** ** Toggling the read flag *)

(** C7, as stated, fails: nothing is flipped before the store answers.
    With chapters 1-5 cached and unread, a toggle of chapter 3 sends the
    PATCH and leaves the five cached flags unread while the request is
    outstanding, also after a render. *)
Lemma toggle_not_optimistic_counterexample :
  let w0 := Session.mount (sample_store 5) in
  let w := Session.commit (Session.click_toggle 3 false w0) in
  Session.calls w = [ListPage 1 5; PatchRead 3 true]
  ∧ length (Session.pending w) = 1%nat
  ∧ read <$> App.chs (Session.state w) = [false; false; false; false; false].
Proof. cbv zeta. split_and!; vm_compute; reflexivity. Qed.

(** C7, amended. [handle_toggle_read(id, currRead)] sends the PATCH with
    the negated flag and leaves the state untouched while the request is
    outstanding.  When the store answers with a record, every cached record
    with that id is replaced by the store's record as a whole, the other
    records and the error cell keep their values.  When the request fails,
    the cached list, and with it the chapter's read flag, is exactly what
    it was, and the error message is stored. *)
Theorem toggle_read_reconciliation (w : Session.World) (r : App.State)
    (id_num : Z) (currRead : bool) :
  Session.view w = Some r →
  (let w' := Session.click_toggle id_num currRead w in
   Session.state w' = Session.state w
   ∧ Session.calls w' = Session.calls w ++ [PatchRead id_num (negb currRead)]
   ∧ Session.pending w'
     = Session.pending w ++ [Session.ToggleReq id_num currRead (App.chs r)])
  ∧ (∀ chs0 updatedCh s,
       let s' :=
         App.handle_toggle_read_end chs0 id_num currRead (Ok updatedCh) s in
       length (App.chs s') = length (App.chs s)
       ∧ (∀ k,
            App.chs s' !! k
            = (fun c => if decide (id c = id_num) then updatedCh else c)
                <$> (App.chs s !! k))
       ∧ App.err_msg s' = App.err_msg s)
  ∧ (∀ chs0 res s,
       (∀ body, res ≠ Ok body) →
       let s' := App.handle_toggle_read_end chs0 id_num currRead res s in
       App.chs s' = App.chs s
       ∧ (∃ m, s' = App.setErrMsg m s)).
Proof.
  intros Hview. split_and!.
  - unfold Session.click_toggle. by rewrite Hview.
  - intros chs0 updatedCh s. simpl. split_and!; [|intros k; apply replace_lookup|done].
    apply length_fmap.
  - intros chs0 res s Hfail. destruct res as [body| |msg]; simpl.
    + by destruct (Hfail body).
    + eauto.
    + eauto.
Qed.

Lemma toggle_read_reconciliation_witness :
  let w0 := Session.mount (sample_store 5) in
  let w := Session.click_toggle 3 false w0 in
  Session.view w0 = Some (Session.state w0)
  ∧ Session.state w = Session.state w0
  ∧ read <$> App.chs (Session.state (Session.settle 0 (Some "offline") w))
    = [false; false; false; false; false].
Proof.
  cbv zeta.
  assert (Hview : Session.view (Session.mount (sample_store 5))
                  = Some (Session.state (Session.mount (sample_store 5))))
    by (vm_compute; reflexivity).
  destruct (toggle_read_reconciliation _ _ 3 false Hview) as ((Hstate & _) & _).
  split_and!; [exact Hview|exact Hstate|vm_compute; reflexivity].
Defined.

(** ** Mutations of a chapter that is not cached *)

(** C9, as stated, fails: there is no guard on the id.  With only page 1
    cached, a toggle and a note for chapter 7 are both sent to the store;
    the store holds chapter 7 and accepts the toggle, no error is stored,
    and the read counter moves. *)
Lemma unknown_chapter_counterexample :
  let w0 := Session.mount (sample_store 12) in
  let w := Session.await (Session.click_toggle 7 false w0) in
  (7 ∉ ids (App.chs (Session.state w0)))
  ∧ Session.calls (Session.click_toggle 7 false w0)
    = [ListPage 1 5; PatchRead 7 true]
  ∧ Session.calls (Session.submit_note 7 "x" w0)
    = [ListPage 1 5; PostNote 7 "x"]
  ∧ App.err_msg (Session.state w) = None
  ∧ read <$> Session.server w
    = [false; false; false; false; false; false; true; false; false; false;
       false; false]
  ∧ Session.state w ≠ Session.state w0.
Proof.
  cbv zeta. split_and!; try (vm_compute; reflexivity).
  - by_compute.
  - intros Heq. apply (f_equal App.prog) in Heq. vm_compute in Heq.
    discriminate.
Qed.

(** C9, amended. For an id that no cached record has, both handlers still
    send their request (the note handler for every non-empty text), and
    whatever the store answers the cached list is left as it was: a record
    sent back finds no record to replace, and a failed request only stores
    its error message. *)
Theorem unknown_chapter_cache_frame (w : Session.World) (r : App.State)
    (id_num : Z) (currRead : bool) (note_txt : string) :
  Session.view w = Some r →
  note_txt ≠ "" →
  Session.calls (Session.click_toggle id_num currRead w)
  = Session.calls w ++ [PatchRead id_num (negb currRead)]
  ∧ Session.calls (Session.submit_note id_num note_txt w)
    = Session.calls w ++ [PostNote id_num note_txt]
  ∧ (∀ chs0 res s,
       id_num ∉ ids (App.chs s) →
       App.chs (App.handle_toggle_read_end chs0 id_num currRead res s)
       = App.chs s
       ∧ App.add_note_end id_num res s
         = match res with
           | Ok _ => s
           | NotOk => App.setErrMsg "Failed to add note" s
           | Rejected msg => App.setErrMsg msg s
           end
       ∧ ((∀ body, res ≠ Ok body) →
          ∃ m, App.handle_toggle_read_end chs0 id_num currRead res s
               = App.setErrMsg m s)).
Proof.
  intros Hview Htxt. split_and!.
  - unfold Session.click_toggle. by rewrite Hview.
  - unfold Session.submit_note, App.add_note_call. rewrite Hview.
    by rewrite decide_False.
  - intros chs0 res s Hnin. destruct res as [body| |msg]; simpl.
    + rewrite replace_absent by done. split_and!; [done| |intros Hf; by destruct (Hf body)].
      unfold App.setChs. rewrite replace_absent by done. by destruct s.
    + split_and!; eauto.
    + split_and!; eauto.
Qed.

Lemma unknown_chapter_cache_frame_witness :
  let w0 := Session.mount (sample_store 12) in
  Session.view w0 = Some (Session.state w0)
  ∧ "x" ≠ ""
  ∧ (7 ∉ ids (App.chs (Session.state w0)))
  ∧ App.chs
      (App.handle_toggle_read_end [] 7 false (Ok (sample_chapter 7 true))
         (Session.state w0))
    = App.chs (Session.state w0).
Proof.
  cbv zeta.
  assert (Hview : Session.view (Session.mount (sample_store 12))
                  = Some (Session.state (Session.mount (sample_store 12))))
    by (vm_compute; reflexivity).
  assert (Htxt : "x" ≠ "") by discriminate.
  assert (Hnin : 7 ∉ ids (App.chs (Session.state (Session.mount (sample_store 12)))))
    by by_compute.
  destruct (unknown_chapter_cache_frame _ _ 7 false "x" Hview Htxt)
    as (_ & _ & Hframe).
  destruct (Hframe [] (Ok (sample_chapter 7 true)) _ Hnin) as (Hchs & _).
  split_and!; [exact Hview|exact Htxt|exact Hnin|exact Hchs].
Defined.

(** ** Paging through the store *)

Lemma js_slice_window {A} (l : list A) (s n : nat) :
  js_slice l (Z.of_nat s) (Z.of_nat s + Z.of_nat n) = take n (drop s l).
Proof.
  unfold js_slice.
  destruct (Z.ltb_spec (Z.of_nat s) 0) as [?|_]; [lia|].
  destruct (Z.ltb_spec (Z.of_nat s + Z.of_nat n) 0) as [?|_]; [lia|].
  destruct (decide (s ≤ length l)%nat) as [Hle|Hgt].
  - replace (Z.to_nat (Z.min (Z.of_nat s) (Z.of_nat (length l)))) with s by lia.
    replace (Z.to_nat (Z.min (Z.of_nat s + Z.of_nat n) (Z.of_nat (length l))
                       - Z.min (Z.of_nat s) (Z.of_nat (length l))))
      with (min n (length (drop s l))) by (rewrite length_drop; lia).
    by rewrite <- take_take, firstn_all.
  - replace (Z.to_nat (Z.min (Z.of_nat s + Z.of_nat n) (Z.of_nat (length l))
                       - Z.min (Z.of_nat s) (Z.of_nat (length l))))
      with 0%nat by lia.
    rewrite (drop_ge l s) by lia. by rewrite take_nil.
Qed.

(** The page that the server sends for page number [j + 1] and limit 5. *)
Lemma get_chapters_page (srv : Server.store) (j : nat) :
  Server.get_chapters (Some (Z.of_nat j + 1)) (Some App.limit) srv
  = (take 5 (drop (5 * j) srv), Z.of_nat (length srv)).
Proof.
  unfold Server.get_chapters, App.limit.
  assert (Hp : Server.or_default (Some (Z.of_nat j + 1)) 1 = Z.of_nat j + 1).
  { unfold Server.or_default. destruct (Z.of_nat j + 1) eqn:E; lia || done. }
  rewrite Hp. cbn [Server.or_default]. f_equal.
  replace ((Z.of_nat j + 1 - 1) * 5) with (Z.of_nat (5 * j)) by lia.
  pose proof (js_slice_window srv (5 * j) 5) as Hslice.
  change (Z.of_nat 5) with 5 in Hslice. rewrite Hslice.
  destruct (Z.ltb_spec (Z.of_nat (5 * j)) (Z.of_nat (length srv))); [done|].
  rewrite drop_ge; [done|lia].
Qed.

Lemma next_page_all_new (srv : Server.store) (m n : nat) :
  NoDup (ids srv) →
  ∀ c, c ∈ take n (drop m srv) → id c ∉ ids (take m srv).
Proof.
  intros Hnd c Hc Hin.
  rewrite <- (take_drop m srv), ids_app in Hnd.
  apply NoDup_app in Hnd as (_ & Hdisj & _).
  apply (Hdisj _ Hin), elem_of_ids.
  apply list_elem_of_lookup in Hc as [k Hk].
  apply lookup_take_Some in Hk as [Hk _].
  apply list_elem_of_lookup. by exists k.
Qed.

Lemma merge_next_page (srv : Server.store) (m n : nat) :
  NoDup (ids srv) →
  App.merge (take m srv) (take n (drop m srv)) = take (m + n) srv.
Proof.
  intros Hnd. rewrite merge_refines_spec. unfold merge_spec.
  rewrite unseen_all_new by by apply next_page_all_new.
  apply take_take_drop.
Qed.

(** [fetchChapters] resuming with page [j + 1] when the first [j] pages are
    the cached list, both in the state and in its closure. *)
Lemma fetch_next_page (srv : Server.store) (j : nat) (s : App.State) :
  NoDup (ids srv) →
  App.chs s = take (5 * j) srv →
  App.fetchChapters_end (take (5 * j) srv)
    (Ok (Server.get_chapters (Some (Z.of_nat j + 1)) (Some App.limit) srv)) s
  = {| App.chs := take (5 * S j) srv;
       App.load := false;
       App.pg := App.pg s;
       App.has_more := Z.of_nat (5 * S j) <? Z.of_nat (length srv);
       App.prog := read_count (take (5 * S j) srv);
       App.err_msg := App.err_msg s |}.
Proof.
  intros Hnd Hchs. rewrite get_chapters_page.
  unfold App.fetchChapters_end, App.setLoad, App.setProg, App.setHasMore,
    App.setChs. cbn [App.chs App.load App.pg App.has_more App.prog App.err_msg].
  rewrite <- Nat2Z.inj_add, <- length_app, <- merge_unseen, Hchs.
  rewrite merge_next_page by done.
  replace (5 * j + 5)%nat with (5 * S j)%nat by lia.
  f_equal. rewrite length_take.
  destruct (Z.ltb_spec (Z.of_nat (5 * S j)) (Z.of_nat (length srv)));
    [apply Z.ltb_lt|apply Z.ltb_ge]; lia.
Qed.

Lemma commit_loaded (srv : Server.store) (j : nat) :
  Session.commit (loaded srv j) = loaded srv j.
Proof.
  unfold Session.commit, loaded. cbn [Session.view Session.state App.pg].
  by rewrite Z.eqb_refl.
Qed.

Lemma mount_loaded (srv : Server.store) :
  NoDup (ids srv) → Session.mount srv = loaded srv 1.
Proof.
  intros Hnd. unfold Session.mount, Session.await.
  unfold Session.commit at 2, Session.start.
  cbn [Session.view Session.state Session.server Session.calls
       Session.pending].
  unfold Session.send.
  cbn [Session.view Session.state Session.server Session.calls
       Session.pending Session.call_of app App.pg App.chs App.initial].
  unfold Session.settle.
  cbn [Session.pending lookup list_lookup Session.resume Session.server
       Session.state].
  pose proof (fetch_next_page srv 0 (App.fetchChapters_begin App.initial) Hnd)
    as Hfetch.
  change (take (5 * 0) srv) with (@nil Chapter) in Hfetch.
  change (Z.of_nat 0 + 1) with 1 in Hfetch.
  rewrite Hfetch by done.
  cbn [Session.view Session.calls delete list_delete].
  unfold Session.commit.
  cbn [Session.view Session.state Session.server Session.calls
       Session.pending App.pg App.initial App.fetchChapters_begin
       App.setLoad App.err_msg].
  reflexivity.
Qed.

Lemma request_loaded (srv : Server.store) (v : Viewport) (j : nat) :
  NoDup (ids srv) →
  near_bottom v = true →
  (5 * j < length srv)%nat →
  Session.requestNextPage v (loaded srv j) = loaded srv (S j).
Proof.
  intros Hnd Hv Hmore.
  assert (Hgate : (Z.of_nat (5 * j) <? Z.of_nat (length srv)) = true)
    by (apply Z.ltb_lt; lia).
  assert (Hpg : (Z.of_nat j =? Z.of_nat j + 1) = false)
    by (apply Z.eqb_neq; lia).
  unfold loaded. rewrite Hgate.
  unfold Session.requestNextPage, Session.await, Session.scroll.
  session_step.
  unfold App.handleScroll. rewrite Hv. session_step.
  unfold Session.commit at 2. session_step. rewrite Hpg. session_step.
  unfold Session.send. session_step.
  unfold Session.settle. session_step.
  rewrite fetch_next_page by done.
  unfold Session.commit. session_step.
  rewrite Z.eqb_refl. session_step.
  replace (Z.of_nat (S j)) with (Z.of_nat j + 1) by lia.
  rewrite (seqZ_app 1 (Z.of_nat j) 1), fmap_app by lia.
  do 2 f_equal. unfold App.fetchChapters_call, App.limit.
  change (seqZ (1 + Z.of_nat j) 1) with [0 + (1 + Z.of_nat j)].
  cbn [fmap list_fmap]. do 2 f_equal. lia.
Qed.

Lemma request_done (srv : Server.store) (v : Viewport) (j : nat) :
  (length srv ≤ 5 * j)%nat →
  Session.requestNextPage v (loaded srv j) = loaded srv j.
Proof.
  intros Hall. unfold Session.requestNextPage, Session.await.
  rewrite (scroll_closed v (loaded srv j) (Session.state (loaded srv j)));
    [|done|right; apply Z.ltb_ge; lia].
  rewrite commit_loaded. unfold Session.settle at 1.
  cbn [loaded Session.pending lookup list_lookup]. apply commit_loaded.
Qed.

Lemma after_fetches_loaded (srv : Server.store) (v : Viewport) (j : nat) :
  NoDup (ids srv) →
  near_bottom v = true →
  (j = 0 ∨ 5 * j < length srv)%nat →
  after_fetches srv v (S j) = loaded srv (S j).
Proof.
  intros Hnd Hv. induction j as [|j IH]; intros Hj; simpl.
  - by apply mount_loaded.
  - simpl in IH. rewrite IH by lia. apply request_loaded; [done|done|lia].
Qed.

Lemma page_calls_pages (l : list Z) :
  Session.page_calls ((fun p => ListPage p 5) <$> l) = l.
Proof.
  unfold Session.page_calls. induction l as [|p l IH]; [done|].
  simpl. f_equal. exact IH.
Qed.

Lemma ceil_div_5 (N : nat) :
  let n := Z.to_nat (Z.max 1 (ceil_div (Z.of_nat N) App.limit)) in
  ∃ m, n = S m ∧ (N ≤ 5 * n)%nat ∧ (m = 0 ∨ 5 * m < N)%nat.
Proof.
  unfold ceil_div, App.limit. cbv zeta.
  pose proof (Z.div_mod (Z.of_nat N + 5 - 1) 5 ltac:(lia)) as Hdm.
  pose proof (Z.mod_pos_bound (Z.of_nat N + 5 - 1) 5 ltac:(lia)) as Hmod.
  set (q := (Z.of_nat N + 5 - 1) / 5) in *.
  exists (Z.to_nat (Z.max 1 q) - 1)%nat. lia.
Qed.

(** C6, as stated, fails for the empty store: [ceil(0 / 5)] is 0, but
    before any fetch [has_more] still has its initial value [true]; it is
    the mount fetch, the first, that clears it. *)
Lemma has_more_empty_store_counterexample :
  ceil_div (Z.of_nat (length (sample_store 0))) App.limit = 0
  ∧ App.has_more (Session.state (after_fetches (sample_store 0) at_bottom 0))
    = true
  ∧ App.has_more (Session.state (after_fetches (sample_store 0) at_bottom 1))
    = false
  ∧ Session.page_calls
      (Session.calls (after_fetches (sample_store 0) at_bottom 1))
    = [1].
Proof. split_and!; vm_compute; reflexivity. Qed.

(** C6, amended. For a store of [N] chapters with unique ids and the page
    size 5 of the page-state client, the mount fetch and the awaited scroll
    triggers that follow it reach [has_more = false] after exactly
    [max(1, ceil(N / 5))] page fetches: [has_more] holds before that, the
    fetches are those of pages [1 .. n] in order, the cached list is then
    the whole store, nothing is outstanding, and every further trigger
    leaves the session, and so the log of requests, as it is. *)
Theorem has_more_termination (srv : Server.store) (v : Viewport) :
  NoDup (ids srv) →
  near_bottom v = true →
  let n :=
    Z.to_nat (Z.max 1 (ceil_div (Z.of_nat (length srv)) App.limit)) in
  (∀ j, (j < n)%nat →
     App.has_more (Session.state (after_fetches srv v j)) = true)
  ∧ (∀ j, (j ≤ n)%nat →
       Session.page_calls (Session.calls (after_fetches srv v j))
       = seqZ 1 (Z.of_nat j))
  ∧ App.has_more (Session.state (after_fetches srv v n)) = false
  ∧ App.chs (Session.state (after_fetches srv v n)) = srv
  ∧ Session.pending (after_fetches srv v n) = []
  ∧ (∀ vs : list Viewport,
       foldr Session.requestNextPage (after_fetches srv v n) vs
       = after_fetches srv v n).
Proof.
  intros Hnd Hv n.
  destruct (ceil_div_5 (length srv)) as (m & Hn & Hall & Hm).
  fold n in Hn, Hall. split_and!.
  - intros [|j] Hj; [done|].
    rewrite after_fetches_loaded by (done || lia).
    cbn [loaded Session.state App.has_more]. apply Z.ltb_lt. lia.
  - intros [|j] Hj; [done|].
    rewrite after_fetches_loaded by (done || lia).
    cbn [loaded Session.calls]. apply page_calls_pages.
  - rewrite Hn, after_fetches_loaded by (done || lia).
    cbn [loaded Session.state App.has_more]. apply Z.ltb_ge. lia.
  - rewrite Hn, after_fetches_loaded by (done || lia).
    cbn [loaded Session.state App.chs]. apply take_ge. lia.
  - rewrite Hn, after_fetches_loaded by (done || lia). done.
  - intros vs. rewrite Hn, after_fetches_loaded by (done || lia).
    induction vs as [|v' vs IH]; [done|].
    cbn [foldr]. rewrite IH. apply request_done. lia.
Qed.

Lemma has_more_termination_witness :
  NoDup (ids (sample_store 12))
  ∧ near_bottom at_bottom = true
  ∧ App.has_more (Session.state (after_fetches (sample_store 12) at_bottom 3))
    = false
  ∧ App.chs (Session.state (after_fetches (sample_store 12) at_bottom 3))
    = sample_store 12.
Proof.
  assert (Hnd : NoDup (ids (sample_store 12))) by by_compute.
  assert (Hv : near_bottom at_bottom = true) by reflexivity.
  destruct (has_more_termination (sample_store 12) at_bottom Hnd Hv)
    as (_ & _ & Hdone & Hchs & _).
  split_and!; [exact Hnd|exact Hv|exact Hdone|exact Hchs].
Defined.

(** In the query-library client [hasNextPage] is cleared by the first
    empty page only: for the store of 12 chapters the three pages that
    hold them leave it set, and a fourth request is made. *)
Lemma hasNextPage_needs_empty_page :
  let fetch := UseChapters.fetchNextPage (sample_store 12) in
  UseChapters.hasNextPage (fetch (fetch (fetch []))) = true
  ∧ ids (UseChapters.chapters (fetch (fetch (fetch []))))
    = [1; 2; 3; 4; 5; 6; 7; 8; 9; 10; 11; 12]
  ∧ length (fetch (fetch (fetch (fetch [])))) = 4%nat
  ∧ UseChapters.hasNextPage (fetch (fetch (fetch (fetch [])))) = false.
Proof. cbv zeta. split_and!; vm_compute; reflexivity. Qed.

(** * Further properties of the code *)

(** ** The list route of the server *)

Lemma or_default_nonzero (n d : Z) : n ≠ 0 → Server.or_default (Some n) d = n.
Proof. intros Hn. unfold Server.or_default. by destruct n. Qed.






(** X3. The list route does not reject a negative page number: the start
    and end handed to [slice] are then both negative and count from the
    end of the array.  When [(1 - page) * limit] chapters exist, page
    [page < 0] is the window of [limit] chapters that begins
    [(1 - page) * limit] before the end. *)
Theorem get_chapters_negative_page (srv : Server.store) (p l : Z) :
  p < 0 → 1 ≤ l →
  (1 - p) * l ≤ Z.of_nat (length srv) →
  (Server.get_chapters (Some p) (Some l) srv).1
  = take (Z.to_nat l)
      (drop (Z.to_nat (Z.of_nat (length srv) - (1 - p) * l)) srv).
Proof.
  intros Hp Hl Hlen. unfold Server.get_chapters.
  rewrite !or_default_nonzero by lia. cbv zeta. cbn [fst].
  destruct (Z.ltb_spec ((p - 1) * l) (Z.of_nat (length srv))) as [_|?]; [|nia].
  unfold js_slice.
  destruct (Z.ltb_spec ((p - 1) * l) 0) as [_|?]; [|nia].
  destruct (Z.ltb_spec ((p - 1) * l + l) 0) as [_|?]; [|nia].
  f_equal; [|f_equal]; nia.
Qed.

Lemma get_chapters_negative_page_witness :
  -1 < 0 ∧ 1 ≤ 5
  ∧ (1 - -1) * 5 ≤ Z.of_nat (length (sample_store 17))
  ∧ ids (Server.get_chapters (Some (-1)) (Some 5) (sample_store 17)).1
    = [8; 9; 10; 11; 12].
Proof.
  assert (Hp : -1 < 0) by lia. assert (Hl : 1 ≤ 5) by lia.
  assert (Hlen : (1 - -1) * 5 ≤ Z.of_nat (length (sample_store 17)))
    by (vm_compute; discriminate).
  pose proof (get_chapters_negative_page (sample_store 17) (-1) 5 Hp Hl Hlen)
    as Heq.
  split_and!; [exact Hp|exact Hl|exact Hlen|].
  rewrite Heq. vm_compute. reflexivity.
Defined.

(** X4. The list route does not reject a negative limit either: for page 1
    the end handed to [slice] is the limit itself, so the answer is the
    whole array without its last [-limit] chapters, which can be far more
    chapters than any page size. *)
Theorem get_chapters_negative_limit (srv : Server.store) (l : Z) :
  l < 0 →
  (Server.get_chapters (Some 1) (Some l) srv).1
  = take (Z.to_nat (Z.of_nat (length srv) + l)) srv.
Proof.
  intros Hl. unfold Server.get_chapters.
  rewrite !or_default_nonzero by lia. cbv zeta. cbn [fst].
  replace ((1 - 1) * l) with 0 by lia.
  destruct (Z.ltb_spec 0 (Z.of_nat (length srv))) as [Hpos|Hzero].
  - unfold js_slice. cbn [Z.ltb Z.compare].
    destruct (Z.ltb_spec (0 + l) 0) as [_|?]; [|lia].
    replace (Z.to_nat (Z.min 0 (Z.of_nat (length srv)))) with 0%nat by lia.
    rewrite drop_0. f_equal. lia.
  - destruct srv; [by rewrite take_nil|simpl in Hzero; lia].
Qed.

Lemma get_chapters_negative_limit_witness :
  -5 < 0
  ∧ ids (Server.get_chapters (Some 1) (Some (-5)) (sample_store 17)).1
    = [1; 2; 3; 4; 5; 6; 7; 8; 9; 10; 11; 12].
Proof.
  assert (Hl : -5 < 0) by lia.
  pose proof (get_chapters_negative_limit (sample_store 17) (-5) Hl) as Heq.
  split; [exact Hl|]. rewrite Heq. vm_compute. reflexivity.
Defined.

(** ** Reading back what a mutation route wrote *)

Lemma mutate_found_NaN (f : Chapter → Chapter) (chapters : Server.store) :
  Server.mutate_found None f chapters = chapters.
Proof. induction chapters as [|c rest IH]; [done|]. simpl. by rewrite IH. Qed.

Lemma mutate_found_absent (i : option Z) (f : Chapter → Chapter)
    (chapters : Server.store) :
  Server.find i chapters = None → Server.mutate_found i f chapters = chapters.
Proof.
  destruct i as [n|]; [|intros _; apply mutate_found_NaN].
  induction chapters as [|c rest IH]; [done|]. simpl.
  destruct (id c =? n); [done|]. intros Hf. by rewrite IH.
Qed.

Lemma patch_store (i : option Z) (b : bool) (chapters : Server.store) :
  (Server.patch_chapter i b chapters).2
  = Server.mutate_found i (set_read b) chapters.
Proof.
  unfold Server.patch_chapter.
  destruct (Server.find i chapters) eqn:Hf; [done|].
  by rewrite mutate_found_absent.
Qed.

Lemma post_store (i : option Z) (note : string) (chapters : Server.store) :
  (Server.post_note i note chapters).2
  = Server.mutate_found i (push_note note) chapters.
Proof.
  unfold Server.post_note.
  destruct (Server.find i chapters) eqn:Hf; [done|].
  by rewrite mutate_found_absent.
Qed.

Lemma find_mutate_found (i j : option Z) (f : Chapter → Chapter)
    (chapters : Server.store) :
  (∀ c, id (f c) = id c) →
  Server.find i (Server.mutate_found j f chapters)
  = if decide (i = j) then f <$> Server.find i chapters
    else Server.find i chapters.
Proof.
  intros Hid. destruct j as [m|].
  2:{ rewrite mutate_found_NaN. case_decide; [subst i|done].
      by rewrite find_NaN. }
  destruct i as [n|].
  2:{ rewrite !find_NaN. by case_decide. }
  induction chapters as [|c rest IH]; [by case_decide|].
  cbn [Server.mutate_found Server.find].
  destruct (Z.eqb_spec (id c) m) as [Hm|Hm].
  - cbn [Server.find]. rewrite Hid.
    destruct (Z.eqb_spec (id c) n) as [Hn|Hn].
    + rewrite decide_True by congruence. done.
    + rewrite decide_False by congruence. done.
  - cbn [Server.find].
    destruct (Z.eqb_spec (id c) n) as [Hn|Hn]; [|exact IH].
    rewrite decide_False by congruence. done.
Qed.

(** X5. Reading back after a write: a GET of chapter [n] that follows a
    PATCH or a POST of a note for [n] answers exactly what that request
    answered (the updated chapter, or 404 when the array has no such id),
    and a GET of any other chapter answers what it answered before. *)
Theorem get_after_mutation (srv : Server.store) (n m : Z) (b : bool)
    (note : string) :
  Server.get_chapter (Some m) (Server.patch_chapter (Some n) b srv).2
  = (if decide (m = n) then (Server.patch_chapter (Some n) b srv).1
     else Server.get_chapter (Some m) srv)
  ∧ Server.get_chapter (Some m) (Server.post_note (Some n) note srv).2
    = (if decide (m = n) then (Server.post_note (Some n) note srv).1
       else Server.get_chapter (Some m) srv).
Proof.
  rewrite patch_store, post_store. unfold Server.get_chapter.
  rewrite !find_mutate_found by done.
  unfold Server.patch_chapter, Server.post_note.
  destruct (decide (m = n)) as [->|Hne].
  - rewrite !decide_True by done.
    by destruct (Server.find (Some n) srv).
  - rewrite !decide_False by congruence. done.
Qed.

(** ** What no sequence of requests changes *)

Lemma mutate_found_fixed (i : option Z) (f : Chapter → Chapter)
    (chapters : Server.store) :
  (∀ c, fixed_fields (f c) = fixed_fields c) →
  fixed_fields <$> Server.mutate_found i f chapters
  = fixed_fields <$> chapters.
Proof.
  intros Hf. destruct i as [n|]; [|by rewrite mutate_found_NaN].
  induction chapters as [|c rest IH]; [done|]. simpl.
  destruct (id c =? n); rewrite !fmap_cons; [by rewrite Hf|by rewrite IH].
Qed.

Lemma notes_grow_refl (chapters : Server.store) :
  Forall2 (fun c c' => notes c `prefix_of` notes c') chapters chapters.
Proof. induction chapters; constructor; done. Qed.

Lemma mutate_found_notes (i : option Z) (f : Chapter → Chapter)
    (chapters : Server.store) :
  (∀ c, notes c `prefix_of` notes (f c)) →
  Forall2 (fun c c' => notes c `prefix_of` notes c') chapters
    (Server.mutate_found i f chapters).
Proof.
  intros Hf. destruct i as [n|].
  2:{ rewrite mutate_found_NaN. apply notes_grow_refl. }
  induction chapters as [|c rest IH]; [constructor|]. simpl.
  destruct (id c =? n); constructor; auto using notes_grow_refl.
Qed.

Lemma served_fixed (r : route) (chapters : Server.store) :
  fixed_fields <$> served r chapters = fixed_fields <$> chapters.
Proof.
  destruct r as [i|pq lq|i b|i note]; cbn [served]; [done|done| |].
  - rewrite patch_store. by apply mutate_found_fixed.
  - rewrite post_store. by apply mutate_found_fixed.
Qed.

Lemma served_notes (r : route) (chapters : Server.store) :
  Forall2 (fun c c' => notes c `prefix_of` notes c') chapters
    (served r chapters).
Proof.
  destruct r as [i|pq lq|i b|i note]; cbn [served];
    try apply notes_grow_refl.
  - rewrite patch_store. by apply mutate_found_notes.
  - rewrite post_store. apply mutate_found_notes.
    intros c. cbn. by apply prefix_app_r.
Qed.

(** X6. Whatever requests the server handles, in whatever order, the array
    keeps its length and order and every chapter keeps its id, title,
    slide, summary, cliffnotes and details; the notes of a chapter are
    only ever extended at the end, never shortened or reordered. *)
Theorem served_all_invariants (rs : list route) (srv : Server.store) :
  fixed_fields <$> served_all rs srv = fixed_fields <$> srv
  ∧ ids (served_all rs srv) = ids srv
  ∧ length (served_all rs srv) = length srv
  ∧ Forall2 (fun c c' => notes c `prefix_of` notes c') srv
      (served_all rs srv).
Proof.
  assert (Hfix : fixed_fields <$> served_all rs srv = fixed_fields <$> srv).
  { revert srv. induction rs as [|r rs IH]; intros srv; [done|].
    cbn [served_all foldl]. fold (served_all rs (served r srv)).
    by rewrite IH, served_fixed. }
  split_and!.
  - exact Hfix.
  - apply (f_equal (fmap (fun t => t.1.1.1.1.1))) in Hfix.
    rewrite <- !list_fmap_compose in Hfix. exact Hfix.
  - apply (f_equal length) in Hfix. by rewrite !length_fmap in Hfix.
  - clear Hfix. revert srv. induction rs as [|r rs IH]; intros srv.
    + apply notes_grow_refl.
    + cbn [served_all foldl]. fold (served_all rs (served r srv)).
      eapply Forall2_trans; [|apply served_notes|apply IH].
      intros c1 c2 c3 H12 H23. by trans (notes c2).
Qed.

(** ** How the mutation routes compose *)

Lemma mutate_found_compose (i : option Z) (f g : Chapter → Chapter)
    (chapters : Server.store) :
  (∀ c, id (g c) = id c) →
  Server.mutate_found i f (Server.mutate_found i g chapters)
  = Server.mutate_found i (fun c => f (g c)) chapters.
Proof.
  intros Hg. destruct i as [n|]; [|by rewrite !mutate_found_NaN].
  induction chapters as [|c rest IH]; [done|]. simpl.
  destruct (Z.eqb_spec (id c) n) as [Hn|Hn]; simpl.
  - by rewrite Hg, <- Hn, Z.eqb_refl.
  - destruct (Z.eqb_spec (id c) n); [done|]. by rewrite IH.
Qed.

Lemma mutate_found_ext (i : option Z) (f g : Chapter → Chapter)
    (chapters : Server.store) :
  (∀ c, f c = g c) →
  Server.mutate_found i f chapters = Server.mutate_found i g chapters.
Proof.
  intros Hfg. destruct i as [n|]; [|by rewrite !mutate_found_NaN].
  induction chapters as [|c rest IH]; [done|]. simpl.
  destruct (id c =? n); [by rewrite Hfg|by rewrite IH].
Qed.

Lemma mutate_found_commute (i j : option Z) (f g : Chapter → Chapter)
    (chapters : Server.store) :
  (∀ c, id (f c) = id c) →
  (∀ c, id (g c) = id c) →
  (∀ c, f (g c) = g (f c)) →
  Server.mutate_found i f (Server.mutate_found j g chapters)
  = Server.mutate_found j g (Server.mutate_found i f chapters).
Proof.
  intros Hf Hg Hfg.
  destruct i as [n|]; [|by rewrite !mutate_found_NaN].
  destruct j as [m|]; [|by rewrite !mutate_found_NaN].
  induction chapters as [|c rest IH]; [done|]. simpl.
  destruct (Z.eqb_spec (id c) m) as [Hm|Hm];
    destruct (Z.eqb_spec (id c) n) as [Hn|Hn]; simpl;
    rewrite ?Hf, ?Hg;
    repeat match goal with
      | |- context [?x =? ?y] => destruct (Z.eqb_spec x y); try congruence
      end;
    by rewrite ?Hfg, ?IH.
Qed.

(** X7. A PATCH overrides an earlier PATCH of the same id, so that the
    array is as if only the later one had been made, and repeating a PATCH
    changes nothing; a PATCH and a POST of a note, for the same id or for
    different ids, leave the same array in either order. *)
Theorem mutations_compose (srv : Server.store) (i j : option Z)
    (b b' : bool) (note : string) :
  (Server.patch_chapter i b (Server.patch_chapter i b' srv).2).2
  = (Server.patch_chapter i b srv).2
  ∧ (Server.patch_chapter i b (Server.post_note j note srv).2).2
    = (Server.post_note j note (Server.patch_chapter i b srv).2).2.
Proof.
  rewrite ?patch_store, ?post_store, ?patch_store. split.
  - rewrite mutate_found_compose by done. by apply mutate_found_ext.
  - by apply mutate_found_commute.
Qed.

(** ** The merge of the page-state client *)

Lemma merge_ids_disjoint (A P : list Chapter) (n : Z) :
  n ∈ ids A → n ∉ ids (App.unseen A P).
Proof.
  intros HnA. rewrite unseen_eq. unfold ids at 1. rewrite list_elem_of_fmap.
  intros (c & -> & Hc). by apply list_elem_of_filter in Hc as [? _].
Qed.

(** X8. The cached list that the merge returns is free of repeated ids
    exactly when the list it started from was and the new part of the page
    repeats no id.  So a sequence of pages, none of which repeats an id
    within itself, never puts an id twice into the list, however much the
    pages overlap one another. *)
Theorem merge_unique_ids (A P : list Chapter) (pages : list (list Chapter)) :
  (NoDup (ids (App.merge A P))
   ↔ NoDup (ids A) ∧ NoDup (ids (App.unseen A P)))
  ∧ (Forall (fun page => NoDup (ids page)) pages →
     NoDup (ids (foldl App.merge [] pages))).
Proof.
  split; [|apply merge_pages_NoDup].
  rewrite merge_unseen, ids_app, NoDup_app. split.
  - intros (HA & _ & HP). done.
  - intros [HA HP]. split_and!; [done| |done].
    intros n. apply merge_ids_disjoint.
Qed.

Lemma merge_unique_ids_witness :
  let pages :=
    [[sample_chapter 1 false; sample_chapter 2 false];
     [sample_chapter 2 true; sample_chapter 3 false];
     [sample_chapter 1 true; sample_chapter 3 true]] in
  Forall (fun page => NoDup (ids page)) pages
  ∧ NoDup (ids (foldl App.merge [] pages)).
Proof.
  intros pages.
  assert (Hall : Forall (fun page => NoDup (ids page)) pages)
    by (repeat constructor; by_compute).
  destruct (merge_unique_ids [] [] pages) as [_ Hpages].
  split; [exact Hall|exact (Hpages Hall)].
Defined.

(** X9. What the merge keeps and what it adds.  The list it started from
    is a prefix of the result, record for record: a chapter that is
    already cached is never refreshed from a page, whatever the page says
    about it.  The ids of the result are those of the list together with
    those of the page, its length lies between the length of the list and
    that length plus the length of the page, and the result is the list
    itself exactly when the page brings no id that is new. *)
Theorem merge_frame (A P : list Chapter) :
  A `prefix_of` App.merge A P
  ∧ (∀ n, n ∈ ids (App.merge A P) ↔ n ∈ ids A ∨ n ∈ ids P)
  ∧ (length A ≤ length (App.merge A P) ≤ length A + length P)%nat
  ∧ (App.merge A P = A ↔ ∀ c, c ∈ P → id c ∈ ids A).
Proof.
  rewrite merge_refines_spec. unfold merge_spec.
  split; [|split; [|split]].
  - by apply prefix_app_r.
  - intros n. rewrite ids_app, elem_of_app. split.
    + intros [?|Hn]; [by left|right]. by apply ids_filter_sub in Hn.
    + intros [?|Hn]; [by left|].
      destruct (decide (n ∈ ids A)) as [?|HnA]; [by left|right].
      unfold ids in Hn. apply list_elem_of_fmap in Hn as (c & -> & Hc).
      apply elem_of_ids, list_elem_of_filter. by split.
  - rewrite length_app.
    pose proof (length_filter (fun c => id c ∉ ids A) P). lia.
  - split.
    + intros Heq c Hc. destruct (decide (id c ∈ ids A)) as [?|Hnew]; [done|].
      assert (Hnil : filter (fun c => id c ∉ ids A) P = []).
      { apply (app_inv_head A). by rewrite app_nil_r. }
      assert (Hin : c ∈ filter (fun c => id c ∉ ids A) P)
        by by apply list_elem_of_filter.
      rewrite Hnil in Hin. by apply elem_of_nil in Hin.
    + intros Hold.
      assert (Hnil : filter (fun c => id c ∉ ids A) P = []).
      { induction P as [|c P IH]; [done|].
        rewrite filter_cons_False.
        - apply IH. intros c' Hc'. apply Hold. by right.
        - intros Hn. apply Hn, Hold. by left. }
      by rewrite Hnil, app_nil_r.
Qed.

(** ** Resuming handlers of the page-state client *)

(** X10. When [fetchChapters] resumes with a page while the list it closed
    over is still the current one, the state it leaves is consistent: the
    list is the merge of the old list and the page, the counter is the
    recount of that list, [has_more] says whether that list is shorter
    than the total the store reported, [load] is cleared, and the page
    number and the error cell are untouched. *)
Theorem fetch_success_consistent (data : list Chapter) (total : Z)
    (s : App.State) :
  let s' := App.fetchChapters_end (App.chs s) (Ok (data, total)) s in
  App.chs s' = App.merge (App.chs s) data
  ∧ App.prog s' = read_count (App.chs s')
  ∧ App.has_more s' = (Z.of_nat (length (App.chs s')) <? total)
  ∧ App.load s' = false
  ∧ App.pg s' = App.pg s
  ∧ App.err_msg s' = App.err_msg s.
Proof.
  simpl. split_and!; try done.
  - by rewrite merge_unseen.
  - by rewrite merge_unseen, length_app, Nat2Z.inj_add.
Qed.

Lemma read_count_app (l k : list Chapter) :
  read_count (l ++ k) = read_count l + read_count k.
Proof. unfold read_count. rewrite filter_app, length_app. lia. Qed.

Lemma read_count_cons (c : Chapter) (l : list Chapter) :
  read_count (c :: l) = (if read c then 1 else 0) + read_count l.
Proof.
  unfold read_count. rewrite filter_cons.
  destruct (read c); case_decide; try done; simpl; lia.
Qed.

Lemma replace_at (id_num : Z) (updatedCh c : Chapter) (l : list Chapter)
    (k : nat) :
  NoDup (ids l) → l !! k = Some c → id c = id_num →
  (fun c => if id c =? id_num then updatedCh else c) <$> l
  = take k l ++ updatedCh :: drop (S k) l.
Proof.
  intros Hnd Hk <-.
  rewrite <- (take_drop_middle l k c Hk) in Hnd.
  rewrite <- (take_drop_middle l k c Hk) at 1.
  rewrite ids_app in Hnd. unfold ids in Hnd at 2. rewrite fmap_cons in Hnd.
  apply NoDup_app in Hnd as (_ & Hdisj & Hnd).
  apply NoDup_cons in Hnd as [Hright _].
  rewrite fmap_app, fmap_cons, Z.eqb_refl.
  rewrite !replace_absent; [done|exact Hright|].
  intros Hleft. apply (Hdisj _ Hleft). by left.
Qed.

(** X11. When the adjustment of [handle_toggle_read] is right.  If the
    cached list repeats no id, holds chapter [id_num] with the read flag
    that was passed as [currRead], is still the list the handler closed
    over, and the store answers with a record whose flag is the negated
    one, then exactly that one record is replaced and the counter stored
    is the recount of the new list. *)
Theorem toggle_success_consistent (id_num : Z) (currRead : bool)
    (updatedCh c : Chapter) (k : nat) (s : App.State) :
  NoDup (ids (App.chs s)) →
  App.chs s !! k = Some c →
  id c = id_num →
  read c = currRead →
  read updatedCh = negb currRead →
  let s' :=
    App.handle_toggle_read_end (App.chs s) id_num currRead (Ok updatedCh) s in
  App.chs s' = <[k := updatedCh]> (App.chs s)
  ∧ App.prog s' = read_count (App.chs s').
Proof.
  intros Hnd Hk Hid Hread Hnew. simpl.
  rewrite (replace_at id_num updatedCh c _ k Hnd Hk Hid).
  split.
  - symmetry. apply insert_take_drop. by apply lookup_lt_Some in Hk.
  - rewrite <- (take_drop_middle _ k c Hk) at 1.
    rewrite !read_count_app, !read_count_cons, Hread, Hnew.
    destruct currRead; simpl; lia.
Qed.

Lemma toggle_success_consistent_witness :
  let s := Session.state (Session.mount (sample_store 5)) in
  NoDup (ids (App.chs s))
  ∧ App.chs s !! 2%nat = Some (sample_chapter 3 false)
  ∧ App.prog
      (App.handle_toggle_read_end (App.chs s) 3 false
         (Ok (sample_chapter 3 true)) s)
    = 1.
Proof.
  cbv zeta.
  set (s := Session.state (Session.mount (sample_store 5))).
  assert (Hnd : NoDup (ids (App.chs s))) by by_compute.
  assert (Hk : App.chs s !! 2%nat = Some (sample_chapter 3 false))
    by (vm_compute; reflexivity).
  destruct (toggle_success_consistent 3 false (sample_chapter 3 true)
              (sample_chapter 3 false) 2 s Hnd Hk eq_refl eq_refl eq_refl)
    as [_ Hprog].
  split_and!; [exact Hnd|exact Hk|]. rewrite Hprog. vm_compute. reflexivity.
Defined.

(** ** Every session of the page-state client *)

Lemma run_snoc (es : list event) (e : event) (w : Session.World) :
  run (es ++ [e]) w = step e (run es w).
Proof. unfold run. by rewrite foldl_app. Qed.

(** An invariant of the steps holds after every run. *)
Lemma run_invariant (Inv : Session.World → Prop) (es : list event)
    (w : Session.World) :
  Inv w → (∀ w' e, Inv w' → Inv (step e w')) → Inv (run es w).
Proof.
  intros Hw Hstep. induction es as [|e es IH] using rev_ind; [done|].
  rewrite run_snoc. by apply Hstep.
Qed.

Lemma ascending_snoc (l : list Z) (x : Z) :
  ascending l → Forall (fun y => y < x) l → ascending (l ++ [x]).
Proof.
  intros Hl Hx i j p q Hij Hi Hj.
  destruct (decide (j < length l)%nat) as [Hjl|Hjl].
  - rewrite lookup_app_l in Hi, Hj by lia. exact (Hl i j p q Hij Hi Hj).
  - rewrite lookup_app_r in Hj by lia.
    destruct (j - length l)%nat as [|?] eqn:Hd; [|done].
    injection Hj as <-. rewrite lookup_app_l in Hi by lia.
    rewrite Forall_forall in Hx. apply Hx.
    apply list_elem_of_lookup. by exists i.
Qed.

Lemma ascending_NoDup (l : list Z) : ascending l → NoDup l.
Proof.
  intros Hl. apply NoDup_alt. intros i j x Hi Hj.
  destruct (Nat.lt_total i j) as [Hlt|[?|Hlt]]; [|done|].
  - pose proof (Hl i j x x Hlt Hi Hj). lia.
  - pose proof (Hl j i x x Hlt Hj Hi). lia.
Qed.

Lemma page_calls_snoc (l : list call) (c : call) :
  Session.page_calls (l ++ [c])
  = Session.page_calls l
    ++ match c with ListPage p _ => [p] | _ => [] end.
Proof. unfold Session.page_calls. rewrite omap_app. by destruct c. Qed.

Lemma resume_pg (r : Session.pending_req) (net : option string)
    (srv : Server.store) (s : App.State) :
  App.pg (Session.resume r net srv s).1 = App.pg s.
Proof. resume_cases r net; done. Qed.

Lemma step_pages (w : Session.World) (e : event) :
  pages_in_order w → pages_in_order (step e w).
Proof.
  unfold pages_in_order, seen_pg. intros (Hasc & Hall & Hseen & Hpg).
  destruct e as [|v|id_num currRead|id_num note_txt|k net]; cbn [step].
  - unfold Session.commit.
    set (changed := match Session.view w with
                    | Some r0 => negb (App.pg r0 =? App.pg (Session.state w))
                    | None => true
                    end).
    destruct changed eqn:Hch; unfold Session.send;
      cbn [Session.calls Session.view Session.state Session.call_of
           App.pg App.fetchChapters_begin App.setLoad App.fetchChapters_call].
    + assert (Hlt : match Session.view w with
                    | Some r => App.pg r
                    | None => 0
                    end < App.pg (Session.state w)).
      { subst changed. destruct (Session.view w); [|lia].
        apply negb_true_iff, Z.eqb_neq in Hch. lia. }
      rewrite page_calls_snoc. split_and!; [| |lia|lia].
      * apply ascending_snoc; [done|].
        eapply Forall_impl; [exact Hall|]. simpl. lia.
      * apply Forall_app. split; [|repeat constructor; lia].
        eapply Forall_impl; [exact Hall|]. simpl. lia.
    + subst changed. destruct (Session.view w) as [r0|]; [|done].
      apply negb_false_iff, Z.eqb_eq in Hch.
      split_and!; [done| |lia|lia].
      eapply Forall_impl; [exact Hall|]. simpl. lia.
  - unfold Session.scroll. destruct (Session.view w) as [r|] eqn:Hv.
    + cbn [Session.calls Session.view Session.state].
      unfold App.handleScroll. case_match; cbn [App.setPg App.pg];
        split_and!; try done; lia.
    + rewrite Hv. done.
  - unfold Session.click_toggle. destruct (Session.view w) as [r|] eqn:Hv.
    + unfold Session.send. cbn [Session.calls Session.view Session.state].
      rewrite page_calls_snoc, app_nil_r, Hv. done.
    + rewrite Hv. done.
  - unfold Session.submit_note.
    destruct (Session.view w) as [r|] eqn:Hv;
      [destruct (App.add_note_call id_num note_txt)|]; rewrite ?Hv; try done.
    unfold Session.send. cbn [Session.calls Session.view Session.state].
    rewrite page_calls_snoc, app_nil_r, Hv. done.
  - unfold Session.settle.
    destruct (Session.pending w !! k) as [r|]; [|done].
    pose proof (resume_pg r net (Session.server w) (Session.state w)) as Hr.
    destruct (Session.resume r net (Session.server w) (Session.state w))
      as [s srv]. cbn [fst] in Hr.
    cbn [Session.calls Session.view Session.state]. rewrite Hr. done.
Qed.

(** X12. In every session of the page-state client (any server, any
    order of renders, scroll events, clicks, notes, answers and transport
    failures) the page numbers requested from the store are strictly
    ascending: pages are asked for in order, none is ever requested a
    second time whatever became of its first request, and none exceeds the
    current page number, which never falls below 1. *)
Theorem pages_requested_ascending (srv : Server.store) (es : list event) :
  let w := run es (Session.start srv) in
  ascending (Session.page_calls (Session.calls w))
  ∧ NoDup (Session.page_calls (Session.calls w))
  ∧ Forall (fun p => 1 ≤ p ≤ App.pg (Session.state w))
      (Session.page_calls (Session.calls w)).
Proof.
  cbv zeta.
  assert (Hinv : pages_in_order (run es (Session.start srv))).
  { apply run_invariant; [|apply step_pages].
    split_and!; [by intros i j p q _ [=]|constructor|done|done]. }
  destruct Hinv as (Hasc & Hall & Hseen & Hpg).
  split_and!; [done|by apply ascending_NoDup|].
  eapply Forall_impl; [exact Hall|]. simpl. lia.
Qed.

Lemma resume_err (r : Session.pending_req) (net : option string)
    (srv : Server.store) (s : App.State) :
  is_Some (App.err_msg s) → is_Some (App.err_msg (Session.resume r net srv s).1).
Proof. intros Herr. resume_cases r net; cbn; eauto. Qed.

Lemma step_err (w : Session.World) (e : event) :
  is_Some (App.err_msg (Session.state w)) →
  is_Some (App.err_msg (Session.state (step e w))).
Proof.
  intros Herr.
  destruct e as [|v|id_num currRead|id_num note_txt|k net]; cbn [step].
  - unfold Session.commit, Session.send. by case_match.
  - unfold Session.scroll. destruct (Session.view w); [|done].
    cbn [Session.state]. unfold App.handleScroll. by case_match.
  - unfold Session.click_toggle. by destruct (Session.view w).
  - unfold Session.submit_note.
    by destruct (Session.view w), (App.add_note_call id_num note_txt).
  - unfold Session.settle. destruct (Session.pending w !! k) as [r|]; [|done].
    pose proof (resume_err r net (Session.server w) _ Herr) as Hr.
    by destruct (Session.resume r net (Session.server w) (Session.state w)).
Qed.

(** X13. No handler of the page-state client clears the error: once
    [err_msg] holds a message it holds one after every later render,
    scroll event, click, note and settled request, successful or not. *)
Theorem error_is_never_cleared (w : Session.World) (es : list event) :
  is_Some (App.err_msg (Session.state w)) →
  is_Some (App.err_msg (Session.state (run es w))).
Proof.
  intros Herr.
  apply (run_invariant
           (fun w => is_Some (App.err_msg (Session.state w)))); [done|].
  intros w' e. apply step_err.
Qed.

Lemma error_is_never_cleared_witness :
  let w :=
    Session.settle 0 (Some "Failed to fetch")
      (Session.commit (Session.start (sample_store 12))) in
  is_Some (App.err_msg (Session.state w))
  ∧ is_Some
      (App.err_msg
         (Session.state
            (run [Commit; Scroll at_bottom; Commit; Settle 0 None; Commit]
               w))).
Proof.
  intros w.
  assert (Herr : is_Some (App.err_msg (Session.state w)))
    by (vm_compute; eauto).
  split; [exact Herr|].
  exact (error_is_never_cleared w _ Herr).
Defined.

Lemma ids_replace (id_num : Z) (updatedCh : Chapter) (l : list Chapter) :
  id updatedCh = id_num →
  ids ((fun c => if id c =? id_num then updatedCh else c) <$> l) = ids l.
Proof.
  intros Hid. unfold ids. rewrite <- list_fmap_compose.
  apply list_fmap_ext. intros k c _. simpl.
  destruct (Z.eqb_spec (id c) id_num); congruence.
Qed.

Lemma patch_response_id (n : Z) (b : bool) (srv srv' : Server.store)
    (u : Chapter) :
  Server.patch_chapter (Some n) b srv = (Server.Json u, srv') → id u = n.
Proof.
  unfold Server.patch_chapter.
  destruct (Server.find (Some n) srv) as [c|] eqn:Hf; [|done].
  intros [= <- _]. by apply find_Some_split in Hf as (? & ? & _ & ? & _).
Qed.

Lemma post_response_id (n : Z) (note : string) (srv srv' : Server.store)
    (u : Chapter) :
  Server.post_note (Some n) note srv = (Server.Json u, srv') → id u = n.
Proof.
  unfold Server.post_note.
  destruct (Server.find (Some n) srv) as [c|] eqn:Hf; [|done].
  intros [= <- _]. by apply find_Some_split in Hf as (? & ? & _ & ? & _).
Qed.

Lemma resume_ids_prefix (r : Session.pending_req) (net : option string)
    (srv : Server.store) (s : App.State) :
  ids (App.chs s) `prefix_of` ids (App.chs (Session.resume r net srv s).1).
Proof.
  resume_cases r net; cbn [App.fetchChapters_end App.handle_toggle_read_end
    App.add_note_end App.chs App.setChs App.setLoad App.setProg
    App.setHasMore App.setErrMsg]; try done.
  - rewrite merge_refines_spec. unfold merge_spec. rewrite ids_app.
    by apply prefix_app_r.
  - by rewrite (ids_replace _ _ _ (patch_response_id _ _ _ _ _ Heqp)).
  - by rewrite (ids_replace _ _ _ (post_response_id _ _ _ _ _ Heqp)).
Qed.

Lemma step_ids_prefix (w : Session.World) (e : event) :
  ids (App.chs (Session.state w))
  `prefix_of` ids (App.chs (Session.state (step e w))).
Proof.
  destruct e as [|v|id_num currRead|id_num note_txt|k net]; cbn [step].
  - unfold Session.commit, Session.send. by case_match.
  - unfold Session.scroll. destruct (Session.view w); [|done].
    cbn [Session.state]. unfold App.handleScroll. by case_match.
  - unfold Session.click_toggle. by destruct (Session.view w).
  - unfold Session.submit_note.
    by destruct (Session.view w), (App.add_note_call id_num note_txt).
  - unfold Session.settle. destruct (Session.pending w !! k) as [r|]; [|done].
    pose proof (resume_ids_prefix r net (Session.server w) (Session.state w))
      as Hr.
    by destruct (Session.resume r net (Session.server w) (Session.state w)).
Qed.

(** X14. The cached list of the page-state client is only ever extended
    at its end: through every session against the server, the ids already
    cached stay where they are, in the order in which they were first
    seen; no event removes a chapter, moves one, or changes the id at a
    position. *)
Theorem cached_ids_only_grow (w : Session.World) (es : list event) :
  ids (App.chs (Session.state w))
  `prefix_of` ids (App.chs (Session.state (run es w))).
Proof.
  apply (run_invariant
           (fun w' => ids (App.chs (Session.state w))
                      `prefix_of` ids (App.chs (Session.state w')))); [done|].
  intros w' e Hw'. trans (ids (App.chs (Session.state w'))); [done|].
  apply step_ids_prefix.
Qed.

Lemma js_slice_sublist {A} (l : list A) (s e : Z) :
  js_slice l s e `sublist_of` l.
Proof.
  unfold js_slice. etrans; [apply sublist_take|apply sublist_drop].
Qed.

Lemma get_chapters_sublist (pq lq : option Z) (srv : Server.store) :
  (Server.get_chapters pq lq srv).1 `sublist_of` srv.
Proof.
  unfold Server.get_chapters. cbn [fst].
  case_match; [apply js_slice_sublist|apply sublist_nil_l].
Qed.

Lemma served_ids (r : route) (srv : Server.store) :
  ids (served r srv) = ids srv.
Proof.
  pose proof (served_fixed r srv) as Hfix.
  apply (f_equal (fmap (fun t => t.1.1.1.1.1))) in Hfix.
  rewrite <- !list_fmap_compose in Hfix. exact Hfix.
Qed.

Lemma resume_sound (srv0 : Server.store) (r : Session.pending_req)
    (net : option string) (srv : Server.store) (s : App.State) :
  NoDup (ids srv0) →
  ids srv = ids srv0 →
  NoDup (ids (App.chs s)) →
  (∀ n, n ∈ ids (App.chs s) → n ∈ ids srv0) →
  ids (Session.resume r net srv s).2 = ids srv0
  ∧ NoDup (ids (App.chs (Session.resume r net srv s).1))
  ∧ ∀ n, n ∈ ids (App.chs (Session.resume r net srv s).1) → n ∈ ids srv0.
Proof.
  intros Hnd0 Hsrv Hnd Hin.
  resume_cases r net; cbn [App.fetchChapters_end App.handle_toggle_read_end
    App.add_note_end App.chs App.setChs App.setLoad App.setProg
    App.setHasMore App.setErrMsg]; try done.
  - pose proof (get_chapters_sublist (Some p) (Some App.limit) srv) as Hsub.
    rewrite Heqp0 in Hsub. cbn [fst] in Hsub.
    assert (Hsubids : ids data `sublist_of` ids srv0).
    { rewrite <- Hsrv. by apply fmap_sublist. }
    split_and!; [done| |].
    + apply merge_NoDup; [done|]. exact (sublist_NoDup _ _ Hnd0 Hsubids).
    + intros n Hn. rewrite merge_refines_spec in Hn. unfold merge_spec in Hn.
      rewrite ids_app in Hn. apply elem_of_app in Hn as [?|Hn]; [by apply Hin|].
      apply ids_filter_sub in Hn. exact (elem_of_sublist _ _ _ Hn Hsubids).
  - pose proof (patch_response_id _ _ _ _ _ Heqp) as Hid.
    pose proof (served_ids (PatchChapter (Some id_num) (negb currRead)) srv)
      as Hids.
    cbn [served] in Hids. rewrite Heqp in Hids. cbn [snd] in Hids.
    rewrite ids_replace by done. split_and!; [congruence|done|done].
  - pose proof (served_ids (PatchChapter (Some id_num) (negb currRead)) srv)
      as Hids.
    cbn [served] in Hids. rewrite Heqp in Hids. cbn [snd] in Hids.
    split_and!; [congruence|done|done].
  - pose proof (post_response_id _ _ _ _ _ Heqp) as Hid.
    pose proof (served_ids (PostChapterNote (Some id_num) note_txt) srv)
      as Hids.
    cbn [served] in Hids. rewrite Heqp in Hids. cbn [snd] in Hids.
    rewrite ids_replace by done. split_and!; [congruence|done|done].
  - pose proof (served_ids (PostChapterNote (Some id_num) note_txt) srv)
      as Hids.
    cbn [served] in Hids. rewrite Heqp in Hids. cbn [snd] in Hids.
    split_and!; [congruence|done|done].
Qed.

Lemma step_sound (srv0 : Server.store) (w : Session.World) (e : event) :
  NoDup (ids srv0) → cache_sound srv0 w → cache_sound srv0 (step e w).
Proof.
  intros Hnd0 (Hsrv & Hnd & Hin). unfold cache_sound.
  destruct e as [|v|id_num currRead|id_num note_txt|k net]; cbn [step].
  - unfold Session.commit, Session.send. by case_match.
  - unfold Session.scroll. destruct (Session.view w); [|done].
    cbn [Session.state Session.server]. unfold App.handleScroll.
    by case_match.
  - unfold Session.click_toggle. by destruct (Session.view w).
  - unfold Session.submit_note.
    by destruct (Session.view w), (App.add_note_call id_num note_txt).
  - unfold Session.settle. destruct (Session.pending w !! k) as [r|]; [|done].
    pose proof (resume_sound srv0 r net (Session.server w) (Session.state w)
                  Hnd0 Hsrv Hnd Hin) as Hr.
    by destruct (Session.resume r net (Session.server w) (Session.state w)).
Qed.

(** X15. Against a server whose array repeats no id, the page-state client
    never caches an id twice and never caches an id the server does not
    have, whatever the order of renders, scroll events, clicks, notes,
    answers and transport failures, and however stale the closures of the
    handlers that resume; the server keeps its ids throughout. *)
Theorem session_cache_unique (srv : Server.store) (es : list event) :
  NoDup (ids srv) →
  let w := run es (Session.start srv) in
  NoDup (ids (App.chs (Session.state w)))
  ∧ (∀ n, n ∈ ids (App.chs (Session.state w)) → n ∈ ids srv)
  ∧ ids (Session.server w) = ids srv.
Proof.
  intros Hnd. cbv zeta.
  assert (Hinv : cache_sound srv (run es (Session.start srv))).
  { apply run_invariant; [|intros w' e; by apply step_sound].
    split_and!; [done|constructor|]. intros n Hn. by apply elem_of_nil in Hn. }
  destruct Hinv as (Hsrv & Hcache & Hin). done.
Qed.

Lemma session_cache_unique_witness :
  let es :=
    [Commit; Scroll at_bottom; Settle 0 None; Commit; Scroll at_bottom;
     Commit; ClickToggle 2 false; Scroll at_bottom; Commit; Settle 1 None;
     Settle 1 None; Settle 0 None] in
  NoDup (ids (sample_store 12))
  ∧ NoDup (ids (App.chs (Session.state
                           (run es (Session.start (sample_store 12))))))
  ∧ length (App.chs (Session.state
                       (run es (Session.start (sample_store 12)))))
    = 12%nat.
Proof.
  intros es.
  assert (Hnd : NoDup (ids (sample_store 12))) by by_compute.
  destruct (session_cache_unique (sample_store 12) es Hnd) as (Hcache & _).
  split_and!; [exact Hnd|exact Hcache|vm_compute; reflexivity].
Defined.

(** ** A mutation from the click to the settled answer *)

Lemma settle_sent (req : Session.pending_req) (net : option string)
    (s : App.State) (w : Session.World) :
  Session.settle (length (Session.pending w)) net (Session.send req s w)
  = {| Session.state := (Session.resume req net (Session.server w) s).1;
       Session.view := Session.view w;
       Session.server := (Session.resume req net (Session.server w) s).2;
       Session.calls := Session.calls w ++ [Session.call_of req];
       Session.pending := Session.pending w |}.
Proof.
  unfold Session.settle, Session.send.
  cbn [Session.pending Session.server Session.state Session.view
       Session.calls].
  rewrite list_lookup_middle by done.
  destruct (Session.resume req net (Session.server w) s) as [s' srv'].
  by rewrite delete_middle, app_nil_r.
Qed.

Lemma replaced_records (id_num : Z) (u c : Chapter) (l : list Chapter) :
  c ∈ (fun c => if id c =? id_num then u else c) <$> l →
  id c = id_num → c = u.
Proof.
  intros Hc Hid. apply list_elem_of_fmap in Hc as (c0 & -> & _).
  destruct (Z.eqb_spec (id c0) id_num); [done|congruence].
Qed.

(** X16. A toggle from the click to the settled answer, client and server
    together.  The server ends as the PATCH with the negated flag leaves
    it and the other pending requests stay pending.  If the server has the
    id, then afterwards every cached record with that id is the very
    record the server now holds, whose read flag is the negation of the
    flag that was passed, and the error cell is untouched.  If it has not,
    the server is unchanged and the client only stores the message
    ['Failed to toggle read']. *)
Theorem toggle_round_trip (w : Session.World) (r : App.State) (id_num : Z)
    (currRead : bool) :
  Session.view w = Some r →
  let w' :=
    Session.settle (length (Session.pending w)) None
      (Session.click_toggle id_num currRead w) in
  Session.server w'
  = (Server.patch_chapter (Some id_num) (negb currRead) (Session.server w)).2
  ∧ Session.pending w' = Session.pending w
  ∧ (id_num ∈ ids (Session.server w) →
     ∃ u, Server.find (Some id_num) (Session.server w') = Some u
          ∧ read u = negb currRead
          ∧ (∀ c, c ∈ App.chs (Session.state w') → id c = id_num → c = u)
          ∧ App.err_msg (Session.state w') = App.err_msg (Session.state w))
  ∧ (id_num ∉ ids (Session.server w) →
     Session.server w' = Session.server w
     ∧ Session.state w'
       = App.setErrMsg "Failed to toggle read" (Session.state w)).
Proof.
  intros Hview. cbv zeta. unfold Session.click_toggle. rewrite Hview.
  rewrite settle_sent. cbn [Session.server Session.pending Session.state
    Session.resume].
  pose proof (patch_store (Some id_num) (negb currRead) (Session.server w))
    as Hstore.
  unfold Server.patch_chapter in *.
  destruct (Server.find (Some id_num) (Session.server w)) as [c0|] eqn:Hfind;
    cbn [fst snd Session.to_fetched] in *.
  - split_and!; [done|done| |].
    + intros _. exists (set_read (negb currRead) c0).
      rewrite find_mutate_found by done.
      rewrite decide_True by done. rewrite Hfind.
      split_and!; [done|done| |done].
      intros c Hc Hid. simpl in Hc. exact (replaced_records _ _ _ _ Hc Hid).
    + intros Hnin. apply find_None_iff in Hnin. congruence.
  - split_and!; [done|done| |done].
    intros Hin. apply find_None_iff in Hfind. done.
Qed.

Lemma toggle_round_trip_witness :
  let w := Session.mount (sample_store 12) in
  let w' := Session.settle 0 None (Session.click_toggle 3 false w) in
  Session.view w = Some (Session.state w)
  ∧ 3 ∈ ids (Session.server w)
  ∧ Server.find (Some 3) (Session.server w') = Some (sample_chapter 3 true)
  ∧ App.chs (Session.state w') !! 2%nat = Some (sample_chapter 3 true).
Proof.
  intros w w'.
  assert (Hview : Session.view w = Some (Session.state w))
    by (vm_compute; reflexivity).
  assert (Hin : 3 ∈ ids (Session.server w)) by by_compute.
  destruct (toggle_round_trip w _ 3 false Hview) as (_ & _ & Hhas & _).
  destruct (Hhas Hin) as (u & Hfind & _).
  split_and!; [exact Hview|exact Hin| |]; vm_compute; reflexivity.
Defined.

(** X17. A note from the button to the settled answer, client and server
    together, for a text that is not empty.  The server ends as the POST
    leaves it and the other pending requests stay pending.  If the server
    has the id, then afterwards its chapter has the text as the last note
    after the notes it had, every cached record with that id is the very
    record the server now holds, and the read counter, the page number and
    the error cell are untouched.  If it has not, the server is unchanged
    and the client only stores the message ['Failed to add note']. *)
Theorem note_round_trip (w : Session.World) (r : App.State) (id_num : Z)
    (note_txt : string) :
  Session.view w = Some r →
  note_txt ≠ "" →
  let w' :=
    Session.settle (length (Session.pending w)) None
      (Session.submit_note id_num note_txt w) in
  Session.server w'
  = (Server.post_note (Some id_num) note_txt (Session.server w)).2
  ∧ Session.pending w' = Session.pending w
  ∧ (∀ c0, Server.find (Some id_num) (Session.server w) = Some c0 →
     ∃ u, Server.find (Some id_num) (Session.server w') = Some u
          ∧ notes u = notes c0 ++ [note_txt]
          ∧ (∀ c, c ∈ App.chs (Session.state w') → id c = id_num → c = u)
          ∧ App.prog (Session.state w') = App.prog (Session.state w)
          ∧ App.pg (Session.state w') = App.pg (Session.state w)
          ∧ App.err_msg (Session.state w') = App.err_msg (Session.state w))
  ∧ (id_num ∉ ids (Session.server w) →
     Session.server w' = Session.server w
     ∧ Session.state w'
       = App.setErrMsg "Failed to add note" (Session.state w)).
Proof.
  intros Hview Htxt. cbv zeta. unfold Session.submit_note, App.add_note_call.
  rewrite Hview, decide_False by done.
  rewrite settle_sent. cbn [Session.server Session.pending Session.state
    Session.resume].
  pose proof (post_store (Some id_num) note_txt (Session.server w)) as Hstore.
  unfold Server.post_note in *.
  destruct (Server.find (Some id_num) (Session.server w)) as [c0|] eqn:Hfind;
    cbn [fst snd Session.to_fetched] in *.
  - split_and!; [done|done| |].
    + intros c0' [= <-]. exists (push_note note_txt c0).
      rewrite find_mutate_found by done.
      rewrite decide_True by done. rewrite Hfind.
      split_and!; [done|done| |done..].
      intros c Hc Hid. simpl in Hc. exact (replaced_records _ _ _ _ Hc Hid).
    + intros Hnin. apply find_None_iff in Hnin. congruence.
  - split_and!; [done|done|done|done].
Qed.

Lemma note_round_trip_witness :
  let w := Session.mount (sample_store 12) in
  let w' := Session.settle 0 None (Session.submit_note 3 "read twice" w) in
  Session.view w = Some (Session.state w)
  ∧ "read twice" ≠ ""
  ∧ notes <$> Server.find (Some 3) (Session.server w') = Some ["read twice"]
  ∧ notes <$> App.chs (Session.state w') !! 2%nat = Some ["read twice"].
Proof.
  intros w w'.
  assert (Hview : Session.view w = Some (Session.state w))
    by (vm_compute; reflexivity).
  assert (Htxt : "read twice" ≠ "") by discriminate.
  destruct (note_round_trip w _ 3 "read twice" Hview Htxt) as (Hsrv & _).
  split_and!; [exact Hview|exact Htxt| |]; vm_compute; reflexivity.
Defined.

(** ** Paging with the query-library client *)








(** ** Awaited paging with the page-state client *)

Lemma after_fetches_settled (srv : Server.store) (v : Viewport) (j : nat) :
  NoDup (ids srv) →
  near_bottom v = true →
  ∃ m, (length srv ≤ 5 * S m)%nat
       ∧ after_fetches srv v (S j) = loaded srv (S (j `min` m)).
Proof.
  intros Hnd Hv.
  destruct (ceil_div_5 (length srv)) as (m & Hn & Hall & Hm).
  exists m. split; [lia|].
  induction j as [|j IH]; [by apply mount_loaded|].
  change (after_fetches srv v (S (S j)))
    with (Session.requestNextPage v (after_fetches srv v (S j))).
  rewrite IH. destruct (decide (j < m)%nat) as [Hlt|Hge].
  - replace (j `min` m)%nat with j by lia.
    replace (S j `min` m)%nat with (S j) by lia.
    apply request_loaded; [done|done|lia].
  - replace (j `min` m)%nat with m by lia.
    replace (S j `min` m)%nat with m by lia.
    apply request_done. lia.
Qed.

(** X19. Awaited paging keeps the page-state client consistent.  Against a
    server whose array repeats no id, after the mount fetch and any number
    of scroll triggers at the bottom, each awaited and rendered before the
    next, the cached list is the first [5 * j] chapters of the store for
    [j] fetches asked (the whole store once that passes its length), the
    read counter is the recount of the cached list, no request is
    outstanding, [load] is cleared and no error is stored. *)
Theorem awaited_paging_consistent (srv : Server.store) (v : Viewport)
    (j : nat) :
  NoDup (ids srv) →
  near_bottom v = true →
  let w := after_fetches srv v (S j) in
  App.chs (Session.state w) = take (5 * S j) srv
  ∧ App.prog (Session.state w) = read_count (App.chs (Session.state w))
  ∧ Session.pending w = []
  ∧ App.load (Session.state w) = false
  ∧ App.err_msg (Session.state w) = None
  ∧ Session.server w = srv.
Proof.
  intros Hnd Hv. cbv zeta.
  destruct (after_fetches_settled srv v j Hnd Hv) as (m & Hall & ->).
  cbn [loaded Session.state Session.pending Session.server App.chs App.prog
       App.load App.err_msg].
  split_and!; try done.
  destruct (decide (j ≤ m)%nat) as [Hle|Hgt].
  - by replace (j `min` m)%nat with j by lia.
  - replace (j `min` m)%nat with m by lia.
    rewrite !take_ge; [done|lia|lia].
Qed.

Lemma awaited_paging_consistent_witness :
  NoDup (ids (sample_store 12))
  ∧ near_bottom at_bottom = true
  ∧ App.chs (Session.state (after_fetches (sample_store 12) at_bottom 5))
    = sample_store 12.
Proof.
  assert (Hnd : NoDup (ids (sample_store 12))) by by_compute.
  assert (Hv : near_bottom at_bottom = true) by reflexivity.
  destruct (awaited_paging_consistent (sample_store 12) at_bottom 4 Hnd Hv)
    as (Hchs & _).
  split_and!; [exact Hnd|exact Hv|]. rewrite Hchs. vm_compute. reflexivity.
Defined.

(** ** The error screen *)

Lemma resume_err_named (r : Session.pending_req) (net : option string)
    (srv : Server.store) (s : App.State) :
  net ≠ Some "" →
  (∃ m, App.err_msg s = Some m ∧ m ≠ "") →
  ∃ m, App.err_msg (Session.resume r net srv s).1 = Some m ∧ m ≠ "".
Proof.
  intros Hnet Herr. resume_cases r net; cbn; eauto; try (by eexists).
  all: exists msg; split; [done|congruence].
Qed.

Lemma step_err_named (w : Session.World) (e : event) :
  (∀ k, e ≠ Settle k (Some "")) →
  (∃ m, App.err_msg (Session.state w) = Some m ∧ m ≠ "") →
  ∃ m, App.err_msg (Session.state (step e w)) = Some m ∧ m ≠ "".
Proof.
  intros Hnamed Herr.
  destruct e as [|v|id_num currRead|id_num note_txt|k net]; cbn [step].
  - unfold Session.commit, Session.send. by case_match.
  - unfold Session.scroll. destruct (Session.view w); [|done].
    cbn [Session.state]. unfold App.handleScroll. by case_match.
  - unfold Session.click_toggle. by destruct (Session.view w).
  - unfold Session.submit_note.
    by destruct (Session.view w), (App.add_note_call id_num note_txt).
  - unfold Session.settle. destruct (Session.pending w !! k) as [r|]; [|done].
    assert (Hnet : net ≠ Some "") by (intros ->; by apply (Hnamed k)).
    pose proof (resume_err_named r net (Session.server w) _ Hnet Herr) as Hr.
    by destruct (Session.resume r net (Session.server w) (Session.state w)).
Qed.

(** X20. An error is terminal for the page of the page-state client.  Once
    a message that is not empty is stored, then after every later run of
    events whose transport failures carry messages that are not empty, the
    component still holds such a message and returns the loading or the
    error screen: the header and the chapter list are not rendered again
    in that session. *)
Theorem error_screen_is_terminal (w : Session.World) (es : list event)
    (m : string) :
  App.err_msg (Session.state w) = Some m →
  m ≠ "" →
  Forall (fun e => ∀ k, e ≠ Settle k (Some "")) es →
  (∃ m', App.err_msg (Session.state (run es w)) = Some m' ∧ m' ≠ "")
  ∧ render (Session.state (run es w)) ≠ Routes.
Proof.
  intros Herr Hm Hnamed.
  assert (Hinv : ∃ m', App.err_msg (Session.state (run es w)) = Some m'
                       ∧ m' ≠ "").
  { induction es as [|e es IH] using rev_ind; [by exists m|].
    rewrite Forall_app, Forall_singleton in Hnamed.
    destruct Hnamed as [Hes He].
    rewrite run_snoc. apply step_err_named; [exact He|by apply IH]. }
  split; [exact Hinv|].
  destruct Hinv as (m' & Hm' & Hne). unfold render. rewrite Hm'.
  case_match; [done|]. by destruct m'.
Qed.

Lemma error_screen_is_terminal_witness :
  let w :=
    Session.commit
      (Session.settle 0 None
         (Session.click_toggle 99 false (Session.mount (sample_store 12)))) in
  let es := [Scroll at_bottom; Commit; Settle 0 None; Commit] in
  App.err_msg (Session.state w) = Some "Failed to toggle read"
  ∧ "Failed to toggle read" ≠ ""
  ∧ Forall (fun e => ∀ k, e ≠ Settle k (Some "")) es
  ∧ render (Session.state (run es w)) = ErrorScreen "Failed to toggle read"
  ∧ length (App.chs (Session.state (run es w))) = 10%nat.
Proof.
  intros w es.
  assert (Herr : App.err_msg (Session.state w)
                 = Some "Failed to toggle read") by (vm_compute; reflexivity).
  assert (Hm : "Failed to toggle read" ≠ "") by discriminate.
  assert (Hnamed : Forall (fun e => ∀ k, e ≠ Settle k (Some "")) es)
    by (repeat constructor; discriminate).
  destruct (error_screen_is_terminal w es _ Herr Hm Hnamed) as [_ Hscreen].
  split_and!; [exact Herr|exact Hm|exact Hnamed| |]; vm_compute; reflexivity.
Defined.

(** ** A page that brings nothing new *)

(** X21. Paging does not stop on a page without new chapters.  When every
    chapter of the page that [fetchChapters] resumes with is already
    cached (and the list it closed over is the current one), the cached
    list is left as it is and [has_more] is set again whenever that list
    is shorter than the total reported with the page: the next scroll
    trigger asks for another page. *)
Theorem stale_page_keeps_has_more (data : list Chapter) (total : Z)
    (s : App.State) :
  (∀ c, c ∈ data → id c ∈ ids (App.chs s)) →
  Z.of_nat (length (App.chs s)) < total →
  let s' := App.fetchChapters_end (App.chs s) (Ok (data, total)) s in
  App.chs s' = App.chs s
  ∧ App.has_more s' = true
  ∧ App.load s' = false.
Proof.
  intros Hold Hshort. simpl.
  assert (Hnil : App.unseen (App.chs s) data = []).
  { rewrite unseen_eq. clear Hshort. induction data as [|c data IH]; [done|].
    rewrite filter_cons_False.
    - apply IH. intros c' Hc'. apply Hold. by right.
    - intros Hn. apply Hn, Hold. by left. }
  rewrite merge_unseen, Hnil, app_nil_r. cbn [length].
  split_and!; [done| |done]. apply Z.ltb_lt. lia.
Qed.

Lemma stale_page_keeps_has_more_witness :
  let s := Session.state (Session.mount (sample_store 12)) in
  let data := [sample_chapter 1 false; sample_chapter 2 true] in
  (∀ c, c ∈ data → id c ∈ ids (App.chs s))
  ∧ Z.of_nat (length (App.chs s)) < 10
  ∧ App.has_more (App.fetchChapters_end (App.chs s) (Ok (data, 10)) s) = true
  ∧ length (App.chs (App.fetchChapters_end (App.chs s) (Ok (data, 10)) s))
    = 5%nat.
Proof.
  intros s data.
  assert (Hold : ∀ c, c ∈ data → id c ∈ ids (App.chs s)).
  { intros c Hc. apply list_elem_of_In in Hc.
    destruct Hc as [<-|[<-|[]]]; by_compute. }
  assert (Hshort : Z.of_nat (length (App.chs s)) < 10)
    by (vm_compute; reflexivity).
  destruct (stale_page_keeps_has_more data 10 s Hold Hshort)
    as (Hchs & Hmore & _).
  split_and!; [exact Hold|exact Hshort|exact Hmore|].
  rewrite Hchs. vm_compute. reflexivity.
Defined.
